(** * vectorbt.base.combine_fns: apply-and-concatenate executors

    A shallow embedding of [vectorbt/base/combine_fns.py].  NumPy arrays are
    modelled by their dtype, shape and contents; Python calls that may raise
    or mutate caller state run in a state-and-exception monad. *)

From Stdlib Require Import ZArith List Bool Arith Lia Permutation.
From stdpp Require Import base list.

(** ** Exceptions *)

Inductive exn := ValueError | IndexError | Exception (code : nat).

Inductive res (A : Type) := Ok (a : A) | Raise (e : exn).
Arguments Ok {A} a.
Arguments Raise {A} e.

Definition res_bind {A B} (r : res A) (k : A -> res B) : res B :=
  match r with Ok a => k a | Raise e => Raise e end.

(** [list(map(f, xs))] for an [f] that may raise: the first failure, in list
    order, is the one that propagates. *)
Fixpoint map_res {A B} (f : A -> res B) (xs : list A) : res (list B) :=
  match xs with
  | [] => Ok []
  | x :: xs' =>
      res_bind (f x) (fun y => res_bind (map_res f xs') (fun ys => Ok (y :: ys)))
  end.

(** ** NumPy arrays *)

Module Np.

(** Element types.  The executors only copy and cast elements, so three
  integer-valued dtypes are enough to observe dtype promotion and casts. *)
Inductive dtype := bool_ | int8 | int64.

Definition dtype_eqb (a b : dtype) : bool :=
match a, b with
| bool_, bool_ | int8, int8 | int64, int64 => true
| _, _ => false
end.

(** [np.result_type]: the smallest dtype both operands cast to safely. *)
Definition result_type (a b : dtype) : dtype :=
match a, b with
| int64, _ | _, int64 => int64
| int8, _ | _, int8 => int8
| bool_, bool_ => bool_
end.

(** Two's-complement wrap-around to [bits] bits. *)
Definition wrap (bits v : Z) : Z :=
((v + 2 ^ (bits - 1)) mod 2 ^ bits - 2 ^ (bits - 1))%Z.

(** The element cast of an assignment [dst[...] = src] (NumPy casts with
  [casting='unsafe'] there): same dtype copies, otherwise C conversion. *)
Definition cast (from to : dtype) (v : Z) : Z :=
if dtype_eqb from to then v
else match to with
     | bool_ => if (v =? 0)%Z then 0%Z else 1%Z
     | int8 => wrap 8 v
     | int64 => wrap 64 v
     end.

(** An array of rank 1 or 2.  A rank-2 array is kept as its row count and
  the list of its columns, so its shape is [(nrows, length columns)]: all
  operations of this module work along axis 1. *)
Inductive ndarray :=
| Array1d (dt : dtype) (data : list Z)
| Array2d (dt : dtype) (nrows : nat) (columns : list (list Z)).

Definition ndim (a : ndarray) : nat :=
match a with Array1d _ _ => 1 | Array2d _ _ _ => 2 end.

Definition dtype_of (a : ndarray) : dtype :=
match a with Array1d dt _ | Array2d dt _ _ => dt end.

(** [a.shape[0]] *)
Definition shape0 (a : ndarray) : nat :=
match a with Array1d _ data => length data | Array2d _ r _ => r end.

(** [a.shape[1]]; a rank-1 array has no axis 1 (Python raises IndexError,
  the executors only ask it of rank-2 arrays). *)
Definition shape1 (a : ndarray) : nat :=
match a with Array1d _ _ => 0 | Array2d _ _ cols => length cols end.

Definition columns_of (a : ndarray) : list (list Z) :=
match a with Array1d _ data => [data] | Array2d _ _ cols => cols end.

(** [np.expand_dims(a, axis=1)] on a rank-1 array: shape [(m,)] becomes
  [(m, 1)]. *)
Definition expand_dims_axis1 (a : ndarray) : ndarray :=
match a with
| Array1d dt data => Array2d dt (length data) [data]
| Array2d _ _ _ => a
end.

(** [np.empty((r, c), dtype)]: a fresh buffer whose cells hold whatever the
  memory held; [junk i j] is that content at row [i], column [j]. *)
Definition empty (junk : nat -> nat -> Z) (r c : nat) (dt : dtype) : ndarray :=
Array2d dt r (map (fun j => map (fun i => junk i j) (seq 0 r)) (seq 0 c)).

(** [np.column_stack(tup)]: rank-1 arrays are turned into columns, then all
  are concatenated along axis 1.  An empty sequence and differing row
  counts raise ValueError; the result has the promoted dtype. *)
Definition column_stack (tup : list ndarray) : res ndarray :=
match map expand_dims_axis1 tup with
| [] => Raise ValueError
| a0 :: rest =>
    if forallb (fun a => shape0 a =? shape0 a0) rest then
      let dt := fold_left (fun d a => result_type d (dtype_of a)) rest
                  (dtype_of a0) in
      Ok (Array2d dt (shape0 a0)
            (concat (map (fun a => map (map (cast (dtype_of a) dt))
                                    (columns_of a)) (a0 :: rest))))
    else Raise ValueError
end.

(** The source of an assignment seen as a rank-2 shape for broadcasting: a
  rank-1 array of length [m] is a single row of [m] columns. *)
Definition as_rows_cols (src : ndarray) : nat * list (list Z) :=
match src with
| Array1d _ data => (1, map (fun x => [x]) data)
| Array2d _ r cols => (r, cols)
end.

(** [out[:, start:stop] = src].  The slice is clipped to the columns of
  [out]; [src] is broadcast to the shape of the slice (an axis of length 1
  stretches), its elements are cast to the dtype of [out]; a shape that
  does not broadcast raises ValueError.  The updated buffer is returned. *)
Definition setitem_cols (out : ndarray) (start stop : nat) (src : ndarray)
: res ndarray :=
match out with
| Array1d _ _ => Raise IndexError
| Array2d dt R cols =>
    let lo := Nat.min start (length cols) in
    let hi := Nat.max lo (Nat.min stop (length cols)) in
    let w := hi - lo in
    let '(sr, scols) := as_rows_cols src in
    let sc := length scols in
    if ((sr =? R) || (sr =? 1)) && ((sc =? w) || (sc =? 1)) then
      let column k :=
        let c := nth (if sc =? w then k else 0) scols [] in
        if sr =? R then map (cast (dtype_of src) dt) c
        else replicate R (cast (dtype_of src) dt (hd 0%Z c)) in
      Ok (Array2d dt R (take lo cols ++ map column (seq 0 w) ++ drop hi cols))
    else Raise ValueError
end.

End Np.

Export Np.

(** ** State and control flow *)

(** A Python computation over caller state [St]: it returns or raises, and
    leaves the state as it was at that point. *)
Definition M (St A : Type) : Type := St -> res A * St.

Definition ret {St A} (a : A) : M St A := fun s => (Ok a, s).

Definition raise {St A} (e : exn) : M St A := fun s => (Raise e, s).

Definition bind {St A B} (m : M St A) (k : A -> M St B) : M St B :=
  fun s => match m s with
           | (Ok a, s') => k a s'
           | (Raise e, s') => (Raise e, s')
           end.

Definition lift {St A} (r : res A) : M St A := fun s => (r, s).

Declare Scope py_scope.
Delimit Scope py_scope with py.
Notation "x <- m ;; k" := (bind m (fun x => k))
  (at level 100, m at next level, right associativity) : py_scope.
Open Scope py_scope.

(** [for x in xs: acc = body(x, acc)], with [acc] the variables the loop
    body updates. *)
Fixpoint for_in {St A B} (xs : list A) (body : A -> B -> M St B) (acc : B)
  : M St B :=
  match xs with
  | [] => ret acc
  | x :: xs' => acc' <- body x acc ;; for_in xs' body acc'
  end.

(** [range(n)] and [range(a, b)] *)
Definition range (n : nat) : list nat := seq 0 n.
Definition range2 (a b : nat) : list nat := seq a (b - a).

(** [tqdm(iterable, disable=...)] yields the items of [iterable] in order;
    the progress display is not modelled. *)
Definition tqdm {A} (iterable : list A) (disable : bool) : list A := iterable.

(** [xs[i]] for a non-negative index. *)
Definition getitem {St A} (xs : list A) (i : nat) : M St A :=
  match xs !! i with
  | Some x => ret x
  | None => raise IndexError
  end.

(** [zip] over the unpacked [xss]: the tuples of the elements at equal
    positions, as many as the shortest argument has; no argument gives no
    tuple. *)
Fixpoint zip_star {A} (xss : list (list A)) : list (list A) :=
  match xss with
  | [] => []
  | xs :: rest =>
      match rest with
      | [] => map (fun x => [x]) xs
      | _ :: _ => zip_with cons xs (zip_star rest)
      end
  end.

(** Modelled from the spec: [vectorbt.base.reshape_fns.to_2d], the Buffer
    Normalizer, is not among the sources.  The spec gives
    "to_2d(buffer) -> 2-D buffer (rank-1 inputs become single-column)"; a
    rank-2 buffer is already normalized. *)
Definition to_2d (a : ndarray) : ndarray :=
  match a with
  | Array1d dt data => Array2d dt (length data) [data]
  | Array2d _ _ _ => a
  end.

(** ** The executors *)

Section Executors.
Context {St Args : Type}.

(** *** Discard arity *)

Definition apply_and_concat_none {R} (n : nat)
    (apply_func : nat -> Args -> M St R) (args : Args)
    (show_progress : bool) : M St unit :=
  for_in (tqdm (range n) (negb show_progress))
    (fun i _ => _ <- apply_func i args ;; ret tt) tt.

Definition apply_and_concat_none_nb {R} (n : nat)
    (apply_func_nb : nat -> Args -> M St R) (args : Args) : M St unit :=
  for_in (range n) (fun i _ => _ <- apply_func_nb i args ;; ret tt) tt.

(** *** Single-stack arity *)

Definition apply_and_concat_one (n : nat)
    (apply_func : nat -> Args -> M St ndarray) (args : Args)
    (show_progress : bool) : M St ndarray :=
  outputs <- for_in (tqdm (range n) (negb show_progress))
               (fun i outputs =>
                  r <- apply_func i args ;; ret (outputs ++ [to_2d r])) [] ;;
  lift (column_stack outputs).

Definition to_2d_one_nb (a : ndarray) : ndarray :=
  if 1 <? ndim a then a else expand_dims_axis1 a.

Definition apply_and_concat_one_nb (junk : nat -> nat -> Z) (n : nat)
    (apply_func_nb : nat -> Args -> M St ndarray) (args : Args)
  : M St ndarray :=
  r0 <- apply_func_nb 0 args ;;
  let output_0 := to_2d_one_nb r0 in
  let output := Np.empty junk (shape0 output_0) (n * shape1 output_0)
                  (dtype_of output_0) in
  for_in (range n)
    (fun i output =>
       outputs_i <- (if i =? 0 then ret output_0
                     else r <- apply_func_nb i args ;; ret (to_2d_one_nb r)) ;;
       lift (setitem_cols output (i * shape1 outputs_i)
               ((i + 1) * shape1 outputs_i) outputs_i))
    output.

(** *** Multi-stack arity *)

Definition apply_and_concat_multiple (n : nat)
    (apply_func : nat -> Args -> M St (list ndarray)) (args : Args)
    (show_progress : bool) : M St (list ndarray) :=
  outputs <- for_in (tqdm (range n) (negb show_progress))
               (fun i outputs =>
                  r <- apply_func i args ;; ret (outputs ++ [map to_2d r])) [] ;;
  lift (map_res column_stack (zip_star outputs)).

Definition to_2d_multiple_nb (a : list ndarray) : list ndarray :=
  fold_left (fun lst _a => lst ++ [to_2d_one_nb _a]) a [].

(** [junk j] is the content of the memory handed out by the [j]-th
    [np.empty]. *)
Definition apply_and_concat_multiple_nb (junk : nat -> nat -> nat -> Z)
    (n : nat) (apply_func_nb : nat -> Args -> M St (list ndarray))
    (args : Args) : M St (list ndarray) :=
  r0 <- apply_func_nb 0 args ;;
  let outputs_0 := to_2d_multiple_nb r0 in
  outputs <- for_in (range (length outputs_0))
               (fun j outputs =>
                  o <- getitem outputs_0 j ;;
                  ret (outputs ++ [Np.empty (junk j) (shape0 o)
                                     (n * shape1 o) (dtype_of o)])) [] ;;
  for_in (range n)
    (fun i outputs =>
       outputs_i <- (if i =? 0 then ret outputs_0
                     else r <- apply_func_nb i args ;;
                          ret (to_2d_multiple_nb r)) ;;
       for_in (range (length outputs_i))
         (fun j outputs =>
            src <- getitem outputs_i j ;;
            buf <- getitem outputs j ;;
            buf' <- lift (setitem_cols buf (i * shape1 src)
                            ((i + 1) * shape1 src) src) ;;
            ret (<[j := buf']> outputs))
         outputs)
    outputs.
End Executors.

(** ** Combine adapters *)

Section Combine.
Context {St Obj Other CArgs : Type}.

(** The shared arguments of the derived apply call:
    [(obj, others, combine_func, *args)]. *)
Definition combine_args (R : Type) : Type :=
  (Obj * list Other * (Obj -> Other -> CArgs -> M St R) * CArgs)%type.

Definition select_and_combine {R} (i : nat) (a : combine_args R) : M St R :=
  let '(obj, others, combine_func, args) := a in
  o <- getitem others i ;; combine_func obj o args.

Definition combine_and_concat (obj : Obj) (others : list Other)
    (combine_func : Obj -> Other -> CArgs -> M St ndarray) (args : CArgs)
    (show_progress : bool) : M St ndarray :=
  apply_and_concat_one (length others) select_and_combine
    (obj, others, combine_func, args) show_progress.

Definition select_and_combine_nb {R} (i : nat) (a : combine_args R)
  : M St R :=
  let '(obj, others, combine_func_nb, args) := a in
  o <- getitem others i ;; combine_func_nb obj o args.

Definition combine_and_concat_nb (junk : nat -> nat -> Z) (obj : Obj)
    (others : list Other)
    (combine_func_nb : Obj -> Other -> CArgs -> M St ndarray) (args : CArgs)
  : M St ndarray :=
  apply_and_concat_one_nb junk (length others) select_and_combine_nb
    (obj, others, combine_func_nb, args).
End Combine.

Section Fold.
Context {St A CArgs : Type}.

Definition combine_multiple (objs : list A)
    (combine_func : A -> A -> CArgs -> M St A) (args : CArgs) : M St A :=
  result <- getitem objs 0 ;;
  for_in (range2 1 (length objs))
    (fun i result => o <- getitem objs i ;; combine_func result o args)
    result.

Definition combine_multiple_nb (objs : list A)
    (combine_func_nb : A -> A -> CArgs -> M St A) (args : CArgs) : M St A :=
  result <- getitem objs 0 ;;
  for_in (range2 1 (length objs))
    (fun i result => o <- getitem objs i ;; combine_func_nb result o args)
    result.
End Fold.

(** ** Distributed executor *)

Section Distributed.
Context {Args Out : Type}.

(** Modelled from the spec: [vectorbt.utils.parallel.run_ntimes_using_ray]
    is not among the sources.  By the spec the [n] invocations run as
    independent, stateless tasks whose results arrive "in arbitrary
    completion order" and are buffered and re-ordered by index, giving
    "one result per iteration in (index-)order"; any failing iteration
    fails the whole batch.  [completion] is the order in which the runtime
    completes the tasks. *)
Definition run_ntimes_using_ray (completion : list nat) (n : nat)
    (func : nat -> Args -> res Out) (args : Args) : res (list Out) :=
  let arrived := map (fun i => (i, func i args)) completion in
  map_res (fun i => match find (fun p => fst p =? i) arrived with
                    | Some p => snd p
                    | None => Raise (Exception 0)
                    end) (range n).
End Distributed.

Definition apply_and_concat_one_ray {Args} (completion : list nat) (n : nat)
    (func : nat -> Args -> res ndarray) (args : Args) : res ndarray :=
  res_bind (run_ntimes_using_ray completion n func args)
    (fun results => column_stack (map to_2d results)).

Definition apply_and_concat_multiple_ray {Args} (completion : list nat)
    (n : nat) (func : nat -> Args -> res (list ndarray)) (args : Args)
  : res (list ndarray) :=
  res_bind (run_ntimes_using_ray completion n func args)
    (fun results => map_res column_stack (zip_star results)).

(** ** Call logs and reference runs *)

(** [logged f] behaves as [f] and records the index of every invocation, in
    order, in a log kept next to the caller's state. *)
Definition logged {St Args R} (f : nat -> Args -> M St R)
  : nat -> Args -> M (St * list nat) R :=
  fun i args sl =>
    let '(r, s') := f i args (fst sl) in (r, (s', snd sl ++ [i])).

(** [f] returns (does not raise) at every index below [n], in any state. *)
Definition returns_below {St Args R} (n : nat) (f : nat -> Args -> M St R)
    (args : Args) : Prop :=
  forall i s, i < n -> exists r s', f i args s = (Ok r, s').

(** The per-iteration results of the indices [xs], called in that order. *)
Fixpoint iterate {St Args R} (f : nat -> Args -> M St R) (args : Args)
    (xs : list nat) : M St (list R) :=
  match xs with
  | [] => ret []
  | i :: xs' => r <- f i args ;; rs <- iterate f args xs' ;; ret (r :: rs)
  end.

(** A function without effects as an apply function. *)
Definition pure_call {St Args R} (g : nat -> Args -> res R)
  : nat -> Args -> M St R :=
  fun i args => lift (g i args).

(** The dtype of a stack of arrays: the promotion of all their dtypes. *)
Definition stack_dtype (arrs : list ndarray) : dtype :=
  fold_left result_type (map dtype_of arrs) bool_.

(** The columns an array contributes to a stack of dtype [dt]. *)
Definition block (dt : dtype) (a : ndarray) : list (list Z) :=
  map (map (cast (dtype_of a) dt)) (columns_of (to_2d a)).

(** The stack of the arrays [arrs], all of [R] rows: their blocks side by
    side, in list order. *)
Definition hstack (R : nat) (arrs : list ndarray) : ndarray :=
  Array2d (stack_dtype arrs) R (concat (map (block (stack_dtype arrs)) arrs)).

(** [combine_func(obj, o, *args)] for every [o] of [others], in order. *)
Fixpoint combine_each {St Obj Other CArgs R}
    (combine_func : Obj -> Other -> CArgs -> M St R) (obj : Obj)
    (others : list Other) (args : CArgs) : M St (list R) :=
  match others with
  | [] => ret []
  | o :: others' =>
      r <- combine_func obj o args ;;
      rs <- combine_each combine_func obj others' args ;;
      ret (r :: rs)
  end.

(** The normalized outputs of [f] at the indices below [n] all have dtype
    [dt], [R] rows and [c] columns. *)
Definition homogeneous_below {St Args} (n : nat)
    (f : nat -> Args -> M St ndarray) (args : Args)
    (dt : dtype) (R c : nat) : Prop :=
  forall i s r s', i < n -> f i args s = (Ok r, s') ->
    dtype_of (to_2d_one_nb r) = dt /\ shape0 (to_2d_one_nb r) = R
    /\ shape1 (to_2d_one_nb r) = c.

(** [combine_func] folded from the left over [rest], starting from [acc]. *)
Fixpoint fold_combine {St A CArgs} (combine_func : A -> A -> CArgs -> M St A)
    (acc : A) (rest : list A) (args : CArgs) : M St A :=
  match rest with
  | [] => ret acc
  | o :: rest' =>
      r <- combine_func acc o args ;; fold_combine combine_func r rest' args
  end.

(** A binary function without effects as a combine function. *)
Definition pure_combine {St A CArgs} (g : A -> A -> A)
  : A -> A -> CArgs -> M St A :=
  fun x y _ => ret (g x y).

(** [counted f] behaves as [f] and counts its invocations next to the
    caller's state. *)
Definition counted {St A CArgs} (f : A -> A -> CArgs -> M St A)
  : A -> A -> CArgs -> M (St * nat) A :=
  fun x y args sc =>
    let '(r, s') := f x y args (fst sc) in (r, (s', S (snd sc))).

(** A run of [m] that returns has appended exactly [l] to the call log. *)
Definition emits {St A} (m : M (St * list nat) A) (l : list nat) : Prop :=
  forall s log a s' log',
    m (s, log) = (Ok a, (s', log')) -> log' = log ++ l.

(** The computation [m] raises from state [s]: it returns no value. *)
Definition raises {St A} (m : M St A) (s : St) : Prop :=
  exists e s', m s = (Raise e, s').

(** The elements at position [j] of the tuples that have one. *)
Definition position {A} (j : nat) (tuples : list (list A)) : list A :=
  omap (fun t => t !! j) tuples.




(** The buffer at position [j] of [bufs] is a rank-2 buffer of [R] rows. *)
Definition rows_at (j R : nat) (bufs : list ndarray) : Prop :=
  exists dt cols, bufs !! j = Some (Array2d dt R cols).

(** Iteration [i] of the single-output function [f] always yields [R] rows
    ([iteration_rows]), or always a row count that is neither [R] nor 1
    ([iteration_rows_mismatch]). *)
Definition iteration_rows {St Args} (f : nat -> Args -> M St ndarray)
    (args : Args) (i R : nat) : Prop :=
  forall s r s', f i args s = (Ok r, s') -> shape0 (to_2d_one_nb r) = R.

Definition iteration_rows_mismatch {St Args} (f : nat -> Args -> M St ndarray)
    (args : Args) (i R : nat) : Prop :=
  forall s r s', f i args s = (Ok r, s') ->
    shape0 (to_2d_one_nb r) <> R /\ shape0 (to_2d_one_nb r) <> 1.

(** The same for position [j] of the tuples of a multi-output function. *)
Definition position_rows {St Args} (f : nat -> Args -> M St (list ndarray))
    (args : Args) (i j R : nat) : Prop :=
  forall s r s', f i args s = (Ok r, s') ->
    exists a, r !! j = Some a /\ shape0 (to_2d a) = R.

Definition position_rows_mismatch {St Args}
    (f : nat -> Args -> M St (list ndarray)) (args : Args) (i j R : nat)
  : Prop :=
  forall s r s', f i args s = (Ok r, s') ->
    exists a, r !! j = Some a
      /\ shape0 (to_2d a) <> R /\ shape0 (to_2d a) <> 1.

(** ** Sample apply functions

    Each counts its invocations in the caller's state. *)
Module Samples.

Definition no_junk : nat -> nat -> Z := fun _ _ => 0%Z.
Definition no_junks : nat -> nat -> nat -> Z := fun _ _ _ => 0%Z.

(** A rank-1 [int64] result of length 2. *)
Definition column_of_index (i : nat) (_ : unit) : M nat ndarray :=
  fun calls => (Ok (Array1d int64 [Z.of_nat i; 7%Z]), S calls).

(** A 2-tuple of 1-column buffers. *)
Definition pair_of_index (i : nat) (_ : unit) : M nat (list ndarray) :=
  fun calls =>
    (Ok [Array1d int64 [Z.of_nat i; 1%Z]; Array2d int8 2 [[Z.of_nat i; 2%Z]]],
     S calls).

(** Two rows at index 0, a single row afterwards. *)
Definition one_row_later (i : nat) (_ : unit) : M nat ndarray :=
  fun calls =>
    (Ok (if i =? 0 then Array2d int64 2 [[5; 6]%Z]
         else Array2d int64 1 [[7%Z]]), S calls).

(** [int8] at index 0, [int64] afterwards. *)
Definition wider_dtype_later (i : nat) (_ : unit) : M nat ndarray :=
  fun calls =>
    (Ok (if i =? 0 then Array1d int8 [1; 2]%Z
         else Array1d int64 [300; 4]%Z), S calls).

(** Two rows at index 0, three rows afterwards. *)
Definition three_rows_later (i : nat) (_ : unit) : M nat ndarray :=
  fun calls =>
    (Ok (if i =? 0 then Array2d int64 2 [[5; 6]%Z]
         else Array2d int64 3 [[7; 8; 9]%Z]), S calls).

Definition three_rows_later_pair (i : nat) (_ : unit)
  : M nat (list ndarray) :=
  fun calls =>
    (Ok (if i =? 0 then [Array1d int64 [1; 2]%Z; Array2d int64 2 [[5; 6]%Z]]
         else [Array1d int64 [3; 4]%Z; Array2d int64 3 [[7; 8; 9]%Z]]),
     S calls).

(** An effect-free task for the distributed executor. *)
Definition task_of_index (i : nat) (_ : unit) : res ndarray :=
  Ok (Array1d int64 [Z.of_nat i; 0%Z]).

(** The results of [column_of_index] and of [pair_of_index] at the
    indices 0, 1, 2. *)
Definition column_outs : list ndarray :=
  [Array1d int64 [0; 7]%Z; Array1d int64 [1; 7]%Z; Array1d int64 [2; 7]%Z].

Definition pair_outs : list (list ndarray) :=
  [[Array1d int64 [0; 1]%Z; Array2d int8 2 [[0; 2]%Z]];
   [Array1d int64 [1; 1]%Z; Array2d int8 2 [[1; 2]%Z]];
   [Array1d int64 [2; 1]%Z; Array2d int8 2 [[2; 2]%Z]]].

Definition pair_dtypes (j : nat) : dtype := if j =? 0 then int64 else int8.

(** A combine function: the two operands side by side. *)
Definition side_by_side (obj other : list Z) (_ : unit) : M nat ndarray :=
  fun calls => (Ok (Array2d int64 (length obj) [obj; other]), S calls).

End Samples.

(** ** Further definitions *)

(** The shortest length among the tuples [xss]; 0 when there is none. *)
Fixpoint min_length {A} (xss : list (list A)) : nat :=
  match xss with
  | [] => 0
  | xs :: rest =>
      match rest with
      | [] => length xs
      | _ :: _ => Nat.min (length xs) (min_length rest)
      end
  end.

(** [f] raises [e] at index [i], in any state. *)
Definition raises_at {St Args R} (f : nat -> Args -> M St R) (args : Args)
    (i : nat) (e : exn) : Prop :=
  forall s, exists s', f i args s = (Raise e, s').

(** Dtype, row count and column count of a buffer. *)
Definition layout_of (a : ndarray) : dtype * nat * nat :=
  (dtype_of a, shape0 a, shape1 a).

(** ** More sample functions *)
Module MoreSamples.

(** Raises at index 2, returns a rank-1 result elsewhere. *)
Definition fails_at_two (i : nat) (_ : unit) : M nat ndarray :=
fun calls =>
  if i =? 2 then (Raise (Exception 7), S calls)
  else (Ok (Array1d int64 [Z.of_nat i; 7%Z]), S calls).

Definition fails_at_two_pair (i : nat) (_ : unit) : M nat (list ndarray) :=
fun calls =>
  if i =? 2 then (Raise (Exception 7), S calls)
  else (Ok [Array1d int64 [Z.of_nat i; 7%Z]], S calls).

End MoreSamples.

(** ** Distributed combine adapter *)

Section CombineRay.
Context {Obj Other CArgs : Type}.

(** [select_and_combine] run as a stateless remote task: the combine
  function has no effect on the caller's state. *)
Definition select_and_combine_task (i : nat)
  (a : Obj * list Other * (Obj -> Other -> CArgs -> res ndarray) * CArgs)
: res ndarray :=
let '(obj, others, combine_func, args) := a in
match others !! i with
| Some o => combine_func obj o args
| None => Raise IndexError
end.

Definition combine_and_concat_ray (completion : list nat) (obj : Obj)
  (others : list Other)
  (combine_func : Obj -> Other -> CArgs -> res ndarray) (args : CArgs)
: res ndarray :=
apply_and_concat_one_ray completion (length others) select_and_combine_task
  (obj, others, combine_func, args).
End CombineRay.

(** The normalized results of combining [obj] with the candidates of
    [others] all have dtype [dt], [R] rows and [c] columns. *)
Definition homogeneous_combine {St Obj Other CArgs}
    (combine_func : Obj -> Other -> CArgs -> M St ndarray) (obj : Obj)
    (others : list Other) (args : CArgs) (dt : dtype) (R c : nat) : Prop :=
  forall o s r s', In o others -> combine_func obj o args s = (Ok r, s') ->
    dtype_of (to_2d_one_nb r) = dt /\ shape0 (to_2d_one_nb r) = R
    /\ shape1 (to_2d_one_nb r) = c.

Module MoreSamples2.

(** Two columns at index 0, one column afterwards. *)
Definition narrower_later (i : nat) (_ : unit) : M nat ndarray :=
fun calls =>
  (Ok (if i =? 0 then Array2d int64 2 [[1; 2]; [3; 4]]%Z
       else Array2d int64 2 [[5; 6]%Z]), S calls).

(** What the memory of a fresh buffer holds at row [r], column [j]. *)
Definition stale (r j : nat) : Z := Z.of_nat (100 + 10 * r + j).

(** A 1-tuple at index 0, a 2-tuple afterwards. *)
Definition longer_later (i : nat) (_ : unit) : M nat (list ndarray) :=
fun calls =>
  (Ok (if i =? 0 then [Array1d int64 [1; 2]%Z]
       else [Array1d int64 [3; 4]%Z; Array1d int64 [5; 6]%Z]), S calls).

End MoreSamples2.

(** ** What a slice assignment stores *)




Module MoreSamples3.

(** One column at index 0, two columns afterwards. *)
Definition wider_later (i : nat) (_ : unit) : M nat ndarray :=
fun calls =>
  (Ok (if i =? 0 then Array2d int64 2 [[1; 2]%Z]
       else Array2d int64 2 [[3; 4]; [5; 6]]%Z), S calls).


(** Index [i] gives [i + 1] columns of two rows. *)
Definition growing_columns (i : nat) (_ : unit) : M nat ndarray :=
fun calls =>
  (Ok (Array2d int64 2 (replicate (S i) [Z.of_nat i; 0%Z])), S calls).

(** Effect-free tasks and an effect-free combine function for the
  distributed executors. *)
Definition pair_task (i : nat) (_ : unit) : res (list ndarray) :=
Ok [Array1d int64 [Z.of_nat i; 1%Z]; Array2d int8 2 [[Z.of_nat i; 2%Z]]].

Definition side_by_side_task (obj other : list Z) (_ : unit) : res ndarray :=
Ok (Array2d int64 (length obj) [obj; other]).

End MoreSamples3.

(** ** The compilation boundary *)

(** Modelled from the spec: [register_jit] ([vectorbt.nb_registry]), the
    decorator of the compiled executors, is not among the sources.  By the
    spec it is "a compilation boundary that accepts a restricted-signature
    function", for a fast path that "requires all per-iteration outputs to
    be dtype- and shape-homogeneous" and "treats dtype drift as fatal": the
    executor and the apply function it calls are compiled (by Numba) before
    anything runs, and an apply function is accepted only with one return
    type, an array type of one dtype and rank.  A [signature] is the outcome
    of that type inference: the return type, or [None] when the apply
    function is rejected. *)
Definition signature : Type := option (dtype * nat).

(** For a function returning tuples the elements must all be of one array
    type ("[a] must be strictly homogeneous"); the inferred type is that
    dtype and rank with the length of the tuple. *)
Definition tuple_signature : Type := option (dtype * nat * nat).

(** The error of a rejected apply function. *)
Definition TypingError : exn := Exception 1.

(** Type inference is sound: an accepted apply function only returns arrays
    of the inferred dtype and rank. *)
Definition infers {St Args} (f : nat -> Args -> M St ndarray) (args : Args)
    (sig : signature) : Prop :=
  forall dt nd, sig = Some (dt, nd) ->
    forall i s r s', f i args s = (Ok r, s') ->
      dtype_of r = dt /\ ndim r = nd.

Definition infers_tuple {St Args} (fs : nat -> Args -> M St (list ndarray))
    (args : Args) (sig : tuple_signature) : Prop :=
  forall dt nd k, sig = Some (dt, nd, k) ->
    forall i s r s', fs i args s = (Ok r, s') ->
      length r = k /\ Forall (fun a => dtype_of a = dt /\ ndim a = nd) r.

(** A call of a compiled executor: a rejected apply function raises before
    any iteration runs, an accepted one runs the executor. *)
Definition jit_apply_and_concat_one_nb {St Args} (sig : signature)
    (junk : nat -> nat -> Z) (n : nat)
    (apply_func_nb : nat -> Args -> M St ndarray) (args : Args)
  : M St ndarray :=
  match sig with
  | None => raise TypingError
  | Some _ => apply_and_concat_one_nb junk n apply_func_nb args
  end.

Definition jit_apply_and_concat_multiple_nb {St Args} (sig : tuple_signature)
    (junk : nat -> nat -> nat -> Z) (n : nat)
    (apply_func_nb : nat -> Args -> M St (list ndarray)) (args : Args)
  : M St (list ndarray) :=
  match sig with
  | None => raise TypingError
  | Some _ => apply_and_concat_multiple_nb junk n apply_func_nb args
  end.

(** Iteration [i] of [f] can produce a buffer of another dtype than
    iteration 0 can. *)
Definition dtype_drift {St Args} (f : nat -> Args -> M St ndarray)
    (args : Args) (i : nat) : Prop :=
  exists s0 r0 s0' si ri si',
    f 0 args s0 = (Ok r0, s0') /\ f i args si = (Ok ri, si')
    /\ dtype_of ri <> dtype_of r0.

(** The same at position [j] of the tuples of a multi-output function. *)
Definition position_dtype_drift {St Args}
    (fs : nat -> Args -> M St (list ndarray)) (args : Args) (i j : nat)
  : Prop :=
  exists s0 r0 s0' si ri si' a0 ai,
    fs 0 args s0 = (Ok r0, s0') /\ fs i args si = (Ok ri, si')
    /\ r0 !! j = Some a0 /\ ri !! j = Some ai
    /\ dtype_of ai <> dtype_of a0.

(** The row counts of iteration [i] mismatch those of iteration 0, or its
    dtype drifts. *)
Definition mismatch {St Args} (f : nat -> Args -> M St ndarray)
    (args : Args) (i R : nat) : Prop :=
  (iteration_rows f args 0 R /\ iteration_rows_mismatch f args i R)
  \/ dtype_drift f args i.

Definition position_mismatch {St Args}
    (fs : nat -> Args -> M St (list ndarray)) (args : Args) (i j R : nat)
  : Prop :=
  (position_rows fs args 0 j R /\ position_rows_mismatch fs args i j R)
  \/ position_dtype_drift fs args i j.

(** Sample apply functions the compilation boundary accepts: their results
    are rank-2 [int64] arrays throughout. *)
Module CompiledSamples.




(** 2-tuples whose second buffer has two rows at index 0 and three rows
  afterwards. *)
Definition taller_pair_later (i : nat) (_ : unit) : M nat (list ndarray) :=
fun calls =>
  (Ok (if i =? 0 then [Array2d int64 2 [[1; 2]%Z]; Array2d int64 2 [[5; 6]%Z]]
       else [Array2d int64 2 [[3; 4]%Z]; Array2d int64 3 [[7; 8; 9]%Z]]),
   S calls).


End CompiledSamples.

(** * Properties *)

(** ** The monad *)

Lemma bind_ok {St A B} (m : M St A) (k : A -> M St B) s a s' :
  m s = (Ok a, s') -> bind m k s = k a s'.
Proof. intros H. unfold bind. now rewrite H. Qed.

Lemma bind_raise {St A B} (m : M St A) (k : A -> M St B) s e s' :
  m s = (Raise e, s') -> bind m k s = (Raise e, s').
Proof. intros H. unfold bind. now rewrite H. Qed.

Lemma bind_assoc {St A B C} (m : M St A) (k : A -> M St B) (h : B -> M St C) s :
  bind (bind m k) h s = bind m (fun a => bind (k a) h) s.
Proof. unfold bind. destruct (m s) as [[a|e] s1]; reflexivity. Qed.

Lemma bind_ext {St A B} (m : M St A) (k k' : A -> M St B) s :
  (forall a s', k a s' = k' a s') -> bind m k s = bind m k' s.
Proof. intros H. unfold bind. destruct (m s) as [[a|e] s1]; [apply H|reflexivity]. Qed.

Lemma bind_cong {St A B} (m : M St A) (k k' : A -> M St B) s :
  (forall a s', m s = (Ok a, s') -> k a s' = k' a s') ->
  bind m k s = bind m k' s.
Proof.
  intros H. unfold bind. destruct (m s) as [[a|e] s1]; [now apply H|reflexivity].
Qed.

Lemma bind_ret_l {St A B} (a : A) (k : A -> M St B) s : bind (ret a) k s = k a s.
Proof. reflexivity. Qed.

Lemma bind_lift_ok {St A B} (a : A) (k : A -> M St B) s :
  bind (lift (Ok a)) k s = k a s.
Proof. reflexivity. Qed.

Lemma bind_lift_raise {St A B} e (k : A -> M St B) (s : St) :
  bind (lift (Raise e)) k s = (Raise e, s).
Proof. reflexivity. Qed.

Lemma bind_ret_r {St A} (m : M St A) s : bind m ret s = m s.
Proof. unfold bind, ret. destruct (m s) as [[a|e] s1]; reflexivity. Qed.

Lemma logged_ok {St Args R} (f : nat -> Args -> M St R) i args s log r s' :
  f i args s = (Ok r, s') ->
  logged f i args (s, log) = (Ok r, (s', log ++ [i])).
Proof. intros H. unfold logged. cbn. now rewrite H. Qed.

(** ** Discard arity *)

Lemma discard_loop_log {St Args R} (f : nat -> Args -> M St R) args :
  forall len start s log,
    (forall i s0, i < start + len -> exists r s1, f i args s0 = (Ok r, s1)) ->
    exists s',
      for_in (seq start len)
        (fun i (_ : unit) => _ <- logged f i args ;; ret tt) tt (s, log)
      = (Ok tt, (s', log ++ seq start len)).
Proof.
  induction len as [|len IH]; intros start s log Hf.
  - exists s. cbn. now rewrite app_nil_r.
  - destruct (Hf start s ltac:(lia)) as (r & s1 & Hr).
    destruct (IH (S start) s1 (log ++ [start])) as (s' & Hs').
    { intros i s0 Hi. apply Hf. lia. }
    exists s'. cbn [seq for_in].
    rewrite (bind_ok _ _ (s, log) tt (s1, log ++ [start])).
    + rewrite Hs'. now rewrite <- app_assoc.
    + rewrite (bind_ok _ _ _ _ _ (logged_ok f start args s log r s1 Hr)).
      reflexivity.
Qed.

(** C9: for every [n >= 0] the discard executors invoke the apply function
    exactly [n] times, once per index in ascending order [0 .. n-1], and
    return nothing ([None]); shown with a call log, for every apply function
    that returns at these indices. *)
Theorem apply_and_concat_none_calls {St Args R} (n : nat)
    (f : nat -> Args -> M St R) (args : Args) (show_progress : bool)
    (s : St) (log : list nat) :
  returns_below n f args ->
  exists s',
    apply_and_concat_none n (logged f) args show_progress (s, log)
      = (Ok tt, (s', log ++ seq 0 n))
    /\ apply_and_concat_none_nb n (logged f) args (s, log)
      = (Ok tt, (s', log ++ seq 0 n))
    /\ length (seq 0 n) = n.
Proof.
  intros Hf.
  destruct (discard_loop_log f args n 0 s log) as (s' & Hs').
  { intros i s0 Hi. apply Hf. lia. }
  exists s'. unfold apply_and_concat_none, apply_and_concat_none_nb, tqdm, range.
  rewrite Hs'. repeat split. apply length_seq.
Qed.

(** ** Normalization and stacking *)

Lemma to_2d_one_nb_eq a : to_2d_one_nb a = to_2d a.
Proof. destruct a; reflexivity. Qed.

Lemma to_2d_rank2 a : exists dt R cols, to_2d a = Array2d dt R cols.
Proof. destruct a; cbn; eauto. Qed.

Lemma dtype_of_to_2d a : dtype_of (to_2d a) = dtype_of a.
Proof. destruct a; reflexivity. Qed.

Lemma map_expand_to_2d arrs :
  map expand_dims_axis1 (map to_2d arrs) = map to_2d arrs.
Proof.
  induction arrs as [|a arrs IH]; cbn; [reflexivity|].
  rewrite IH. now destruct a.
Qed.

Lemma result_type_bool_l d : result_type bool_ d = d.
Proof. now destruct d. Qed.

Lemma result_type_idem d : result_type d d = d.
Proof. now destruct d. Qed.

Lemma dtype_eqb_refl d : dtype_eqb d d = true.
Proof. now destruct d. Qed.

Lemma cast_same d v : cast d d v = v.
Proof. unfold cast. now rewrite dtype_eqb_refl. Qed.

Lemma map_cast_same d (cols : list (list Z)) : map (map (cast d d)) cols = cols.
Proof.
  induction cols as [|c cols IH]; cbn; [reflexivity|].
  rewrite IH. f_equal. induction c as [|v c IHc]; cbn; [reflexivity|].
  now rewrite cast_same, IHc.
Qed.

Lemma fold_dtype_to_2d (l : list ndarray) d :
  fold_left (fun d a => result_type d (dtype_of a)) (map to_2d l) d
  = fold_left result_type (map dtype_of l) d.
Proof.
  revert d. induction l as [|a l IH]; intros d; cbn; [reflexivity|].
  now rewrite dtype_of_to_2d, IH.
Qed.

Lemma column_stack_to_2d R a0 rest :
  Forall (fun a => shape0 (to_2d a) = R) (a0 :: rest) ->
  column_stack (map to_2d (a0 :: rest)) = Ok (hstack R (a0 :: rest)).
Proof.
  intros HR. unfold column_stack. rewrite map_expand_to_2d. cbn [map].
  inversion HR as [|? ? H0 Hrest]; subst.
  assert (Hall : forallb (fun a => shape0 a =? shape0 (to_2d a0))
                   (map to_2d rest) = true).
  { clear HR. induction Hrest as [|a l Ha _ IH]; cbn; [reflexivity|].
    rewrite IH, Ha, Nat.eqb_refl. reflexivity. }
  rewrite Hall. unfold hstack, stack_dtype. cbn [map fold_left].
  rewrite fold_dtype_to_2d, dtype_of_to_2d, result_type_bool_l.
  do 2 f_equal. cbn [concat]. unfold block at 1.
  f_equal. rewrite map_map. f_equal. apply map_ext. intros a.
  unfold block. now rewrite dtype_of_to_2d.
Qed.

(** ** Reference runs *)

Lemma iterate_length {St Args R} (f : nat -> Args -> M St R) args :
  forall xs s outs s',
    iterate f args xs s = (Ok outs, s') -> length outs = length xs.
Proof.
  induction xs as [|i xs IH]; intros s outs s' H; cbn in H.
  - now inversion H.
  - unfold bind in H. destruct (f i args s) as [[r|e] s1]; [|discriminate].
    destruct (iterate f args xs s1) as [[rs|e] s2] eqn:E; [|discriminate].
    inversion H; subst. cbn. f_equal. eauto.
Qed.

Lemma iterate_Forall {St Args R} (f : nat -> Args -> M St R) args
    (P : R -> Prop) :
  forall xs s outs s',
    (forall i s0 r s1, In i xs -> f i args s0 = (Ok r, s1) -> P r) ->
    iterate f args xs s = (Ok outs, s') -> Forall P outs.
Proof.
  induction xs as [|i xs IH]; intros s outs s' HP H; cbn in H.
  - inversion H. constructor.
  - unfold bind in H. destruct (f i args s) as [[r|e] s1] eqn:Ef; [|discriminate].
    destruct (iterate f args xs s1) as [[rs|e] s2] eqn:E; [|discriminate].
    inversion H; subst. constructor.
    + eapply HP; [left; reflexivity | exact Ef].
    + eapply IH; [|exact E]. intros j s0 r0 s3 Hj. apply HP. now right.
Qed.

(** ** Sequential single-stack executor *)

Lemma one_loop {St Args} (f : nat -> Args -> M St ndarray) args :
  forall xs acc s,
    for_in xs (fun i outputs => r <- f i args ;; ret (outputs ++ [to_2d r]))
      acc s
    = (outs <- iterate f args xs ;; ret (acc ++ map to_2d outs)) s.
Proof.
  induction xs as [|i xs IH]; intros acc s; cbn [for_in iterate].
  - rewrite bind_ret_l. unfold ret. now rewrite app_nil_r.
  - rewrite !bind_assoc. apply bind_ext. intros r s1.
    rewrite bind_ret_l, IH, bind_assoc. apply bind_ext. intros rs s2.
    rewrite bind_ret_l. cbn [map]. unfold ret.
    now rewrite <- app_assoc.
Qed.

Lemma apply_and_concat_one_run {St Args} n (f : nat -> Args -> M St ndarray)
    args show_progress s :
  apply_and_concat_one n f args show_progress s
  = (outs <- iterate f args (range n) ;; lift (column_stack (map to_2d outs))) s.
Proof.
  unfold apply_and_concat_one, tqdm. unfold bind at 1. rewrite one_loop.
  unfold bind. destruct (iterate f args (range n) s) as [[rs|e] s1]; reflexivity.
Qed.

(** C5: for every [n >= 1] the sequential single-stack executor normalizes
    each per-iteration output to 2-D (a 1-D result of length [m] becomes an
    m-by-1 buffer) and returns the column-wise concatenation of the
    normalized outputs, iteration [i] giving the [i]-th block from the left;
    the outputs share their row count [R]. *)
Theorem apply_and_concat_one_blocks {St Args} (n : nat)
    (f : nat -> Args -> M St ndarray) (args : Args) (show_progress : bool)
    (s s' : St) (outs : list ndarray) (R : nat) :
  1 <= n ->
  iterate f args (range n) s = (Ok outs, s') ->
  Forall (fun o => shape0 (to_2d o) = R) outs ->
  apply_and_concat_one n f args show_progress s = (Ok (hstack R outs), s')
  /\ length outs = n
  /\ columns_of (hstack R outs) = concat (map (block (stack_dtype outs)) outs)
  /\ forall dt data, to_2d (Array1d dt data) = Array2d dt (length data) [data].
Proof.
  intros Hn Hrun HR.
  assert (Hlen : length outs = n).
  { apply iterate_length in Hrun. unfold range in Hrun.
    now rewrite length_seq in Hrun. }
  repeat split; try assumption.
  rewrite apply_and_concat_one_run. unfold bind. rewrite Hrun.
  destruct outs as [|o outs]; [cbn in Hlen; lia|].
  unfold lift. now rewrite (column_stack_to_2d R).
Qed.

(** ** Compiled single-stack executor *)

Lemma map_nth_seq_id {A} (g : A -> A) (l : list A) (d : A) :
  (forall x, g x = x) ->
  map (fun k => g (nth k l d)) (seq 0 (length l)) = l.
Proof.
  intros Hg. apply nth_ext with (d := g d) (d' := d).
  - now rewrite length_map, length_seq.
  - intros k Hk. rewrite length_map, length_seq in Hk.
    rewrite (nth_indep _ _ (g (nth 0 l d))).
    + rewrite (map_nth (fun k => g (nth k l d)) (seq 0 (length l)) 0 k).
      rewrite seq_nth by assumption. now rewrite Hg.
    + now rewrite length_map, length_seq.
Qed.

(** Writing a block of matching shape and dtype right after the columns
    written so far. *)
Lemma setitem_cols_block dt R (W J cs : list (list Z)) a :
  a = length W -> length cs <= length J ->
  setitem_cols (Array2d dt R (W ++ J)) a (a + length cs) (Array2d dt R cs)
  = Ok (Array2d dt R (W ++ cs ++ drop (length cs) J)).
Proof.
  intros Ha Hc. unfold setitem_cols. cbn [as_rows_cols dtype_of].
  rewrite length_app.
  replace (Nat.min a (length W + length J)) with a by lia.
  replace (Nat.max a (Nat.min (a + length cs) (length W + length J)))
    with (a + length cs) by lia.
  replace (a + length cs - a) with (length cs) by lia.
  rewrite !Nat.eqb_refl. cbn [orb andb].
  rewrite (take_app_length' W J a Ha).
  rewrite (drop_app_add' W J a (length cs) Ha).
  do 4 f_equal.
  apply (map_nth_seq_id (map (cast dt dt)) cs []).
  intros c. clear. induction c as [|v c IH]; cbn; [reflexivity|].
  now rewrite cast_same, IH.
Qed.

Lemma homogeneous_rank2 {St Args} n (f : nat -> Args -> M St ndarray) args
    dt R c i s r s' :
  homogeneous_below n f args dt R c -> i < n -> f i args s = (Ok r, s') ->
  exists cs, to_2d_one_nb r = Array2d dt R cs /\ length cs = c.
Proof.
  intros H Hi Hf. destruct (H i s r s' Hi Hf) as (Hd & HR & Hc).
  rewrite to_2d_one_nb_eq in *.
  destruct (to_2d_rank2 r) as (dt' & R' & cs & E). rewrite E in *.
  cbn in Hd, HR, Hc. subst. eauto.
Qed.

(** The fill loop over the indices [k .. k+m-1], [k >= 1]: the blocks of the
    outputs are appended to the written columns [W], over the junk [J]. *)
Lemma one_nb_loop {St Args} n (f : nat -> Args -> M St ndarray) args dt R c
    (output_0 : ndarray) :
  homogeneous_below n f args dt R c ->
  forall m k W J s,
    1 <= k -> k + m <= n -> length W = k * c -> m * c <= length J ->
    for_in (seq k m)
      (fun i output =>
         outputs_i <- (if i =? 0 then ret output_0
                       else r <- f i args ;; ret (to_2d_one_nb r)) ;;
         lift (setitem_cols output (i * shape1 outputs_i)
                 ((i + 1) * shape1 outputs_i) outputs_i))
      (Array2d dt R (W ++ J)) s
    = (outs <- iterate f args (seq k m) ;;
       ret (Array2d dt R
              (W ++ concat (map (fun o => columns_of (to_2d o)) outs)
                 ++ drop (m * c) J))) s.
Proof.
  intros H. induction m as [|m IH]; intros k W J s Hk Hkm HW HJ;
    cbn [seq for_in iterate].
  - rewrite bind_ret_l. now cbn.
  - destruct (k =? 0) eqn:Ek; [apply Nat.eqb_eq in Ek; lia|].
    rewrite !bind_assoc. apply bind_cong. intros r s1 Hf.
    rewrite bind_ret_l.
    destruct (homogeneous_rank2 n f args dt R c k s r s1 H ltac:(lia) Hf)
      as (cs & Ecs & Hcs).
    rewrite Ecs. cbn [shape1].
    replace ((k + 1) * length cs) with (k * length cs + length cs) by lia.
    rewrite setitem_cols_block by (subst c; cbn in HJ; lia).
    rewrite bind_lift_ok, app_assoc.
    rewrite IH by (rewrite ?length_app, ?length_drop; subst c; cbn in HJ; lia).
    rewrite bind_assoc. apply bind_ext. intros rs s2.
    rewrite bind_ret_l. cbn [map concat].
    rewrite <- to_2d_one_nb_eq, Ecs. cbn [columns_of].
    rewrite drop_drop, <- !app_assoc.
    unfold ret. replace (length cs + m * c) with (S m * c) by (subst c; cbn; lia).
    reflexivity.
Qed.

Lemma stack_dtype_same dt (arrs : list ndarray) :
  Forall (fun o => dtype_of o = dt) arrs ->
  fold_left result_type (map dtype_of arrs) dt = dt.
Proof.
  induction 1 as [|o arrs Ho _ IH]; cbn; [reflexivity|].
  now rewrite Ho, result_type_idem.
Qed.

Lemma hstack_homogeneous dt R o (arrs : list ndarray) :
  Forall (fun o => dtype_of o = dt) (o :: arrs) ->
  hstack R (o :: arrs)
  = Array2d dt R (concat (map (fun o => columns_of (to_2d o)) (o :: arrs))).
Proof.
  intros Hd. unfold hstack.
  assert (E : stack_dtype (o :: arrs) = dt).
  { unfold stack_dtype. inversion Hd; subst. cbn [map fold_left].
    rewrite result_type_bool_l. now apply stack_dtype_same. }
  rewrite E. do 2 f_equal. apply map_ext_Forall.
  apply Forall_forall. intros a Ha. unfold block.
  rewrite Forall_forall in Hd. rewrite (Hd a Ha).
  apply map_cast_same.
Qed.

Lemma empty_columns junk r c dt :
  exists J, Np.empty junk r c dt = Array2d dt r J /\ length J = c.
Proof.
  unfold Np.empty. eexists. split; [reflexivity|].
  now rewrite length_map, length_seq.
Qed.

(** C1: for every [n >= 1] and every apply function whose (normalized)
    per-iteration outputs all have the same row count, dtype and column
    count, the compiled single-stack executor returns what the sequential
    single-stack executor returns on the same inputs: the same stacked
    buffer (or the same exception of the apply function) and the same final
    state, whatever the fresh buffer held. *)
Theorem apply_and_concat_one_nb_refines {St Args} (junk : nat -> nat -> Z)
    (n : nat) (f : nat -> Args -> M St ndarray) (args : Args)
    (show_progress : bool) (s : St) (dt : dtype) (R c : nat) :
  1 <= n ->
  homogeneous_below n f args dt R c ->
  apply_and_concat_one_nb junk n f args s
  = apply_and_concat_one n f args show_progress s.
Proof.
  intros Hn H. rewrite apply_and_concat_one_run.
  unfold apply_and_concat_one_nb, range.
  destruct n as [|n']; [lia|]. cbn [seq iterate for_in].
  rewrite bind_assoc. apply bind_cong. intros r0 s1 Hf0.
  destruct (homogeneous_rank2 _ f args dt R c 0 s r0 s1 H ltac:(lia) Hf0)
    as (cs0 & E0 & Hc0).
  rewrite E0. cbn [shape0 shape1 dtype_of Nat.eqb].
  destruct (empty_columns junk R (S n' * length cs0) dt) as (J & EJ & HJ).
  rewrite EJ, bind_assoc, bind_ret_l. cbn [shape1].
  change (Array2d dt R J) with (Array2d dt R ([] ++ J)).
  change (0 * length cs0) with 0.
  replace ((0 + 1) * length cs0) with (0 + length cs0) by lia.
  rewrite setitem_cols_block by (cbn; lia).
  rewrite bind_lift_ok. cbn [app].
  rewrite (one_nb_loop (S n') f args dt R c) by
    (try assumption; rewrite ?length_drop; subst c; lia).
  rewrite bind_assoc. apply bind_cong. intros rs s2 Hrs.
  rewrite bind_ret_l.
  assert (Hall : Forall (fun o => dtype_of o = dt /\ shape0 (to_2d o) = R)
                   (r0 :: rs)).
  { constructor.
    - destruct (H 0 s r0 s1 ltac:(lia) Hf0) as (Hd & HR & _).
      rewrite to_2d_one_nb_eq in *. now rewrite dtype_of_to_2d in Hd.
    - eapply iterate_Forall; [|exact Hrs].
      intros i s0 r s3 Hi Hf. apply in_seq in Hi.
      destruct (H i s0 r s3 ltac:(lia) Hf) as (Hd & HR & _).
      rewrite to_2d_one_nb_eq in *. now rewrite dtype_of_to_2d in Hd. }
  rewrite (column_stack_to_2d R) by (eapply Forall_impl; [exact Hall|]; now intros ? []).
  rewrite (hstack_homogeneous dt) by (eapply Forall_impl; [exact Hall|]; now intros ? []).
  unfold ret, lift. cbn [map concat].
  rewrite <- to_2d_one_nb_eq, E0. cbn [columns_of].
  rewrite drop_drop, drop_ge by (subst c; lia).
  now rewrite app_nil_r.
Qed.

(** ** Combine adapters *)

Lemma drop_cons_inv {A} (l rest : list A) k x :
  drop k l = x :: rest -> l !! k = Some x /\ drop (S k) l = rest.
Proof.
  intros H. split.
  - rewrite <- (Nat.add_0_r k), <- lookup_drop, H. reflexivity.
  - replace (S k) with (k + 1) by lia. rewrite <- drop_drop, H. reflexivity.
Qed.

Lemma iterate_select {St Obj Other CArgs R}
    (f : Obj -> Other -> CArgs -> M St R) obj (all : list Other) args :
  forall others k s,
    drop k all = others ->
    iterate select_and_combine (obj, all, f, args) (seq k (length others)) s
    = combine_each f obj others args s.
Proof.
  induction others as [|o others IH]; intros k s Hd; cbn [length seq iterate combine_each].
  - reflexivity.
  - destruct (drop_cons_inv _ _ _ _ Hd) as (Hk & Hd').
    unfold select_and_combine at 1. cbv beta iota. unfold getitem at 1.
    rewrite Hk, bind_assoc, bind_ret_l. apply bind_ext. intros r s1.
    unfold bind. rewrite (IH (S k) s1 Hd'). reflexivity.
Qed.

Lemma combine_each_lookup {St Obj Other CArgs R}
    (f : Obj -> Other -> CArgs -> M St R) obj args :
  forall (others : list Other) s outs s',
    combine_each f obj others args s = (Ok outs, s') ->
    length outs = length others
    /\ forall i o, others !! i = Some o ->
         exists r s0 s1, outs !! i = Some r /\ f obj o args s0 = (Ok r, s1).
Proof.
  induction others as [|o others IH]; intros s outs s' H; cbn in H.
  - inversion H; subst. split; [reflexivity|]. intros i o Hi. discriminate.
  - unfold bind in H. destruct (f obj o args s) as [[r|e] s1] eqn:Ef; [|discriminate].
    destruct (combine_each f obj others args s1) as [[rs|e] s2] eqn:E; [|discriminate].
    inversion H; subst. destruct (IH _ _ _ E) as (Hlen & Hl).
    split; [cbn; now rewrite Hlen|].
    intros [|i] o' Hi; cbn in Hi.
    + inversion Hi; subst. exists r, s, s1. split; [reflexivity|assumption].
    + apply Hl in Hi. exact Hi.
Qed.

(** C7: for every non-empty [others] and binary function [f],
    [combine_and_concat(obj, others, f)] is a single-stack apply-and-concat
    with [n = len(others)] whose column block [i] is the normalized
    [f(obj, others[i])], the blocks ordered as [others]; [outs] are the
    results of [f(obj, o)] for the [o] of [others] in order, of shared row
    count [R]. *)
Theorem combine_and_concat_blocks {St Obj Other CArgs} (obj : Obj)
    (others : list Other) (f : Obj -> Other -> CArgs -> M St ndarray)
    (args : CArgs) (show_progress : bool) (s s' : St) (outs : list ndarray)
    (R : nat) :
  1 <= length others ->
  combine_each f obj others args s = (Ok outs, s') ->
  Forall (fun o => shape0 (to_2d o) = R) outs ->
  combine_and_concat obj others f args show_progress s
    = apply_and_concat_one (length others) select_and_combine
        (obj, others, f, args) show_progress s
  /\ combine_and_concat obj others f args show_progress s
     = (Ok (hstack R outs), s')
  /\ columns_of (hstack R outs) = concat (map (block (stack_dtype outs)) outs)
  /\ length outs = length others
  /\ forall i o, others !! i = Some o ->
       exists r s0 s1, outs !! i = Some r /\ f obj o args s0 = (Ok r, s1).
Proof.
  intros Hn Hrun HR.
  destruct (combine_each_lookup f obj args others s outs s' Hrun) as (Hlen & Hl).
  split; [reflexivity|]. split; [|repeat split; assumption].
  unfold combine_and_concat.
  apply apply_and_concat_one_blocks; try assumption.
  unfold range. now rewrite (iterate_select f obj others args others 0 s).
Qed.

(** ** Pairwise fold *)

Lemma combine_loop {St A CArgs} (f : A -> A -> CArgs -> M St A)
    (objs : list A) args :
  forall rest k acc s,
    drop k objs = rest ->
    for_in (seq k (length rest))
      (fun i result => o <- getitem objs i ;; f result o args) acc s
    = fold_combine f acc rest args s.
Proof.
  induction rest as [|o rest IH]; intros k acc s Hd; cbn [length seq for_in fold_combine].
  - reflexivity.
  - destruct (drop_cons_inv _ _ _ _ Hd) as (Hk & Hd').
    unfold getitem at 1. rewrite Hk, bind_assoc, bind_ret_l.
    apply bind_ext. intros r s1. now apply IH.
Qed.

Lemma combine_multiple_fold {St A CArgs} (f : A -> A -> CArgs -> M St A)
    a rest args s :
  combine_multiple (a :: rest) f args s = fold_combine f a rest args s.
Proof.
  unfold combine_multiple, range2, getitem. cbn [lookup list_lookup length].
  rewrite bind_ret_l. replace (S (length rest) - 1) with (length rest) by lia.
  now apply combine_loop.
Qed.

Lemma fold_combine_pure {St A CArgs} (g : A -> A -> A) (args : CArgs) :
  forall rest a (s : St) cnt,
    fold_combine (counted (pure_combine g)) a rest args (s, cnt)
    = (Ok (fold_left g rest a), (s, cnt + length rest)).
Proof.
  induction rest as [|o rest IH]; intros a s cnt; cbn [fold_combine fold_left length].
  - unfold ret. now rewrite Nat.add_0_r.
  - unfold bind. cbn. rewrite IH. cbn.
    now rewrite Nat.add_succ_r.
Qed.

(** C6: for every non-empty [objs], [combine_multiple(objs, f)] is the
    strict left fold of [f] over [objs]: [combine_multiple([a])] returns [a]
    unchanged with zero calls to [f], and [combine_multiple([a, b, c], f)] is
    [f(f(a, b), c)]; for [f] without effects it is [fold_left] and makes
    [len(objs) - 1] calls.  The compiled variant is the same. *)
Theorem combine_multiple_left_fold {St A CArgs}
    (f : A -> A -> CArgs -> M St A) (g : A -> A -> A) (a b c : A)
    (rest : list A) (args : CArgs) (s : St) (cnt : nat) :
  combine_multiple (a :: rest) f args s = fold_combine f a rest args s
  /\ combine_multiple_nb (a :: rest) f args s = fold_combine f a rest args s
  /\ combine_multiple [a] f args s = (Ok a, s)
  /\ combine_multiple [a] (counted f) args (s, cnt) = (Ok a, (s, cnt))
  /\ combine_multiple [a; b; c] f args s
     = (x <- f a b args ;; f x c args) s
  /\ combine_multiple (a :: rest) (counted (pure_combine g)) args (s, cnt)
     = (Ok (fold_left g rest a), (s, cnt + length rest))
  /\ combine_multiple [a; b; c] (pure_combine g) args s = (Ok (g (g a b) c), s).
Proof.
  repeat apply conj.
  - apply combine_multiple_fold.
  - apply (combine_multiple_fold f).
  - now rewrite combine_multiple_fold.
  - now rewrite combine_multiple_fold.
  - rewrite combine_multiple_fold. cbn [fold_combine].
    apply bind_ext. intros x s1. apply bind_ret_r.
  - now rewrite combine_multiple_fold, fold_combine_pure.
  - now rewrite combine_multiple_fold.
Qed.

(** The fold is from the left: on subtraction it differs from the fold from
    the right. *)
Example combine_multiple_not_right_fold :
  combine_multiple [10; 3; 2]%Z (pure_combine Z.sub) tt tt = (Ok 5%Z, tt)
  /\ (10 - (3 - 2))%Z = 9%Z.
Proof. split; reflexivity. Qed.

(** ** Distributed executor *)

Lemma find_arrived {Args Out} (func : nat -> Args -> res Out) args i :
  forall completion,
    In i completion ->
    find (fun p => fst p =? i) (map (fun j => (j, func j args)) completion)
    = Some (i, func i args).
Proof.
  induction completion as [|j completion IH]; intros Hin; [destruct Hin|].
  cbn [map find fst]. destruct (j =? i) eqn:E.
  - apply Nat.eqb_eq in E. now subst.
  - apply IH. destruct Hin as [->|Hin]; [|assumption].
    rewrite Nat.eqb_refl in E. discriminate.
Qed.

Lemma map_res_ext_in {A B} (f g : A -> res B) :
  forall xs, (forall x, In x xs -> f x = g x) -> map_res f xs = map_res g xs.
Proof.
  induction xs as [|x xs IH]; intros H; cbn; [reflexivity|].
  rewrite (H x (or_introl eq_refl)), IH; [reflexivity|].
  intros y Hy. apply H. now right.
Qed.

(** Whatever the completion order, the results come back by index. *)
Lemma run_ntimes_ordered {Args Out} (func : nat -> Args -> res Out) args
    completion n :
  (forall i, i < n -> In i completion) ->
  run_ntimes_using_ray completion n func args
  = map_res (fun i => func i args) (range n).
Proof.
  intros Hc. unfold run_ntimes_using_ray. apply map_res_ext_in.
  intros i Hi. unfold range in Hi. apply in_seq in Hi.
  rewrite find_arrived by (apply Hc; lia). reflexivity.
Qed.

Lemma iterate_pure {St Args R} (g : nat -> Args -> res R) args :
  forall xs (s : St),
    iterate (pure_call g) args xs s = (map_res (fun i => g i args) xs, s).
Proof.
  induction xs as [|i xs IH]; intros s; cbn [iterate map_res]; [reflexivity|].
  unfold bind, pure_call at 1, lift. destruct (g i args) as [r|e]; cbn; [|reflexivity].
  rewrite IH. now destruct (map_res (fun i => g i args) xs).
Qed.

(** C4: the distributed single-stack executor concatenates the
    per-iteration results in ascending index order: whatever the order
    [completion] in which the runtime completes the [n] tasks, it yields
    what the sequential executor yields on the same (effect-free) apply
    function. *)
Theorem apply_and_concat_one_ray_ordered {St Args} (completion : list nat)
    (n : nat) (func : nat -> Args -> res ndarray) (args : Args)
    (show_progress : bool) (s : St) :
  Permutation completion (range n) ->
  run_ntimes_using_ray completion n func args
    = map_res (fun i => func i args) (range n)
  /\ apply_and_concat_one n (pure_call func) args show_progress s
     = (apply_and_concat_one_ray completion n func args, s).
Proof.
  intros Hp.
  assert (Hr : run_ntimes_using_ray completion n func args
               = map_res (fun i => func i args) (range n)).
  { apply run_ntimes_ordered. intros i Hi.
    apply (Permutation_in _ (Permutation_sym Hp)).
    unfold range. apply in_seq. lia. }
  split; [exact Hr|].
  rewrite apply_and_concat_one_run. unfold apply_and_concat_one_ray.
  rewrite Hr. unfold bind. rewrite iterate_pure.
  now destruct (map_res (fun i => func i args) (range n)).
Qed.

(** ** Call logs of the compiled executors *)

Lemma emits_ret {St A} (a : A) : @emits St A (ret a) [].
Proof. intros s log a' s' log' H. inversion H. now rewrite app_nil_r. Qed.

Lemma emits_lift {St A} (r : res A) : @emits St A (lift r) [].
Proof. intros s log a' s' log' H. inversion H. now rewrite app_nil_r. Qed.

Lemma emits_getitem {St A} (xs : list A) i : @emits St A (getitem xs i) [].
Proof.
  unfold getitem. destruct (xs !! i); [apply emits_ret|].
  intros s log a' s' log' H. discriminate.
Qed.

Lemma emits_logged {St Args R} (f : nat -> Args -> M St R) i args :
  emits (logged f i args) [i].
Proof.
  intros s log a s' log' H. unfold logged in H. cbn in H.
  destruct (f i args s) as [r s1]. now inversion H.
Qed.

Lemma emits_bind {St A B} (m : M (St * list nat) A)
    (k : A -> M (St * list nat) B) l1 l2 :
  emits m l1 -> (forall a, emits (k a) l2) -> emits (bind m k) (l1 ++ l2).
Proof.
  intros Hm Hk s log b s' log' H. unfold bind in H.
  destruct (m (s, log)) as [[a|e] [s1 log1]] eqn:E; [|discriminate].
  apply Hm in E. apply Hk in H. subst. now rewrite app_assoc.
Qed.

Lemma emits_for_in {St A B} (body : A -> B -> M (St * list nat) B)
    (g : A -> list nat) :
  (forall x acc, emits (body x acc) (g x)) ->
  forall xs acc, emits (for_in xs body acc) (concat (map g xs)).
Proof.
  intros Hb. induction xs as [|x xs IH]; intros acc; cbn [for_in map concat].
  - apply emits_ret.
  - apply emits_bind; [apply Hb|apply IH].
Qed.

Lemma fill_log_from n :
  forall k, 1 <= k ->
    concat (map (fun i => if i =? 0 then [] else [i]) (seq k n)) = seq k n.
Proof.
  induction n as [|n IH]; intros k Hk; cbn [seq map concat]; [reflexivity|].
  destruct k as [|k]; [lia|]. cbn [Nat.eqb app]. now rewrite IH by lia.
Qed.

Lemma fill_log n :
  0 :: concat (map (fun i => if i =? 0 then [] else [i]) (seq 0 n))
  = 0 :: seq 1 (n - 1).
Proof.
  f_equal. destruct n as [|n]; [reflexivity|]. cbn [seq map concat Nat.eqb app].
  replace (S n - 1) with n by lia. now apply fill_log_from.
Qed.

Lemma one_nb_emits {St Args} junk n (f : nat -> Args -> M St ndarray) args :
  emits (apply_and_concat_one_nb junk n (logged f) args) (0 :: seq 1 (n - 1)).
Proof.
  rewrite <- fill_log. unfold apply_and_concat_one_nb.
  apply (emits_bind _ _ [0]); [apply emits_logged|]. intros r0.
  apply emits_for_in. intros i output.
  rewrite <- (app_nil_r (if i =? 0 then [] else [i])).
  apply emits_bind; [|intros; apply emits_lift].
  destruct (i =? 0); [apply emits_ret|].
  rewrite <- (app_nil_r [i]).
  apply emits_bind; [apply emits_logged|intros; apply emits_ret].
Qed.

Lemma multiple_nb_emits {St Args} junk n
    (f : nat -> Args -> M St (list ndarray)) args :
  emits (apply_and_concat_multiple_nb junk n (logged f) args)
    (0 :: seq 1 (n - 1)).
Proof.
  rewrite <- fill_log. unfold apply_and_concat_multiple_nb.
  apply (emits_bind _ _ [0]); [apply emits_logged|]. intros r0.
  rewrite <- (app_nil_l (concat _)).
  assert (Hnil : forall {X} (xs : list X), concat (map (fun _ => @nil nat) xs) = []).
  { intros X xs. induction xs; cbn; auto. }
  apply emits_bind.
  - rewrite <- (Hnil _ (range (length (to_2d_multiple_nb r0)))).
    apply emits_for_in. intros j outputs.
    apply (emits_bind _ _ [] []); [apply emits_getitem|intros; apply emits_ret].
  - intros outputs. apply emits_for_in. intros i outs.
    rewrite <- (app_nil_r (if i =? 0 then [] else [i])).
    apply emits_bind.
    + destruct (i =? 0); [apply emits_ret|].
      rewrite <- (app_nil_r [i]).
      apply emits_bind; [apply emits_logged|intros; apply emits_ret].
    + intros outputs_i. rewrite <- (Hnil _ (range (length outputs_i))).
      apply emits_for_in. intros j acc.
      apply (emits_bind _ _ [] []); [apply emits_getitem|]. intros src.
      apply (emits_bind _ _ [] []); [apply emits_getitem|]. intros buf.
      apply (emits_bind _ _ [] []); [apply emits_lift|]. intros buf'.
      apply emits_ret.
Qed.

(** C10: a run of the compiled single-stack or multi-stack executor that
    returns has invoked the apply function exactly [max(n, 1)] times: index
    0 once before the fill loop (its result is reused, not recomputed), so
    also when [n = 0], then each index [1 .. n-1] once, in ascending
    order. *)
Theorem compiled_executors_call_log {St Args} (junk : nat -> nat -> Z)
    (junks : nat -> nat -> nat -> Z) (n : nat)
    (f : nat -> Args -> M St ndarray) (fs : nat -> Args -> M St (list ndarray))
    (args : Args) (s : St) (log : list nat)
    (out : ndarray) (s1 : St) (log1 : list nat)
    (outs : list ndarray) (s2 : St) (log2 : list nat) :
  apply_and_concat_one_nb junk n (logged f) args (s, log)
    = (Ok out, (s1, log1)) ->
  apply_and_concat_multiple_nb junks n (logged fs) args (s, log)
    = (Ok outs, (s2, log2)) ->
  log1 = log ++ 0 :: seq 1 (n - 1)
  /\ log2 = log ++ 0 :: seq 1 (n - 1)
  /\ length (0 :: seq 1 (n - 1)) = Nat.max n 1.
Proof.
  intros H1 H2. split; [|split].
  - exact (one_nb_emits junk n f args s log out s1 log1 H1).
  - exact (multiple_nb_emits junks n fs args s log outs s2 log2 H2).
  - cbn [length]. rewrite length_seq. lia.
Qed.

(** ** Row-count mismatch in the compiled single-stack executor *)

Lemma setitem_cols_rank2 out a b src out' :
  setitem_cols out a b src = Ok out' ->
  exists cols cols',
    out = Array2d (dtype_of out) (shape0 out) cols
    /\ out' = Array2d (dtype_of out) (shape0 out) cols'.
Proof.
  unfold setitem_cols. destruct out as [dt data | dt R cols]; [discriminate|].
  destruct (as_rows_cols src) as [sr scols].
  match goal with |- (if ?b then _ else _) = _ -> _ => destruct b end;
    [|discriminate].
  intros H. inversion H. cbn. eauto.
Qed.

Lemma setitem_cols_bad_rows dt R cols a b r :
  shape0 (to_2d r) <> R -> shape0 (to_2d r) <> 1 ->
  setitem_cols (Array2d dt R cols) a b (to_2d r) = Raise ValueError.
Proof.
  intros HR H1. unfold setitem_cols.
  destruct (to_2d_rank2 r) as (d & sr & cs & E). rewrite E in *.
  cbn [as_rows_cols shape0] in *.
  apply Nat.eqb_neq in HR, H1. now rewrite HR, H1.
Qed.

Lemma one_nb_loop_raises {St Args} (f : nat -> Args -> M St ndarray) args
    (output_0 : ndarray) i R :
  i <> 0 ->
  (forall s r s', f i args s = (Ok r, s') ->
     shape0 (to_2d_one_nb r) <> R /\ shape0 (to_2d_one_nb r) <> 1) ->
  forall xs dt cols s,
    In i xs ->
    raises
      (for_in xs
         (fun i output =>
            outputs_i <- (if i =? 0 then ret output_0
                          else r <- f i args ;; ret (to_2d_one_nb r)) ;;
            lift (setitem_cols output (i * shape1 outputs_i)
                    ((i + 1) * shape1 outputs_i) outputs_i))
         (Array2d dt R cols)) s.
Proof.
  intros Hi Hbad. unfold raises.
  induction xs as [|x xs IH]; intros dt cols s Hin; [destruct Hin|].
  cbn [for_in]. unfold bind at 1.
  match goal with |- context [match ?m s with _ => _ end] =>
    destruct (m s) as [[buf'|e] s1] eqn:Ebody end; [|eauto].
  assert (Hbuf : exists cols', buf' = Array2d dt R cols' /\ x <> i).
  { unfold bind in Ebody. destruct (x =? 0) eqn:Ex.
    - unfold ret, lift in Ebody. cbv beta iota in Ebody.
      apply Nat.eqb_eq in Ex.
      assert (Hset := f_equal fst Ebody). cbn [fst] in Hset.
      destruct (setitem_cols_rank2 _ _ _ _ _ Hset) as (c1 & c2 & E1 & E2).
      cbn in E2. split with c2. split; [assumption|congruence].
    - destruct (f x args s) as [[r|e] s0] eqn:Ef; [|discriminate].
      unfold ret, lift in Ebody. cbv beta iota in Ebody.
      assert (Hset := f_equal fst Ebody). cbn [fst] in Hset.
      destruct (Nat.eq_dec x i) as [->|Hne].
      + destruct (Hbad _ _ _ Ef) as (HR & H1).
        rewrite to_2d_one_nb_eq in *.
        rewrite setitem_cols_bad_rows in Hset by assumption. discriminate.
      + destruct (setitem_cols_rank2 _ _ _ _ _ Hset) as (c1 & c2 & E1 & E2).
        cbn in E2. eauto. }
  destruct Hbuf as (cols' & -> & Hne).
  apply IH. destruct Hin as [->|Hin]; [congruence|assumption].
Qed.

Lemma one_nb_bad_rows_raises {St Args} junk n
    (f : nat -> Args -> M St ndarray) args i R s :
  0 < i < n ->
  (forall s r s', f 0 args s = (Ok r, s') -> shape0 (to_2d_one_nb r) = R) ->
  (forall s r s', f i args s = (Ok r, s') ->
     shape0 (to_2d_one_nb r) <> R /\ shape0 (to_2d_one_nb r) <> 1) ->
  raises (apply_and_concat_one_nb junk n f args) s.
Proof.
  intros Hi H0 Hbad. unfold apply_and_concat_one_nb, raises, bind.
  destruct (f 0 args s) as [[r0|e] s1] eqn:Ef0; [|eauto].
  rewrite (H0 _ _ _ Ef0). unfold Np.empty.
  apply (one_nb_loop_raises f args (to_2d_one_nb r0) i R); try lia; try assumption.
  unfold range. apply in_seq. lia.
Qed.

(** ** Sequential multi-stack executor *)

Lemma lookup_map {A B} (f : A -> B) (l : list A) i :
  map f l !! i = option_map f (l !! i).
Proof. exact (list_lookup_fmap f l i). Qed.

Lemma position_cons {A} j (t : list A) ts :
  position j (t :: ts)
  = match t !! j with Some x => x :: position j ts | None => position j ts end.
Proof. reflexivity. Qed.

Lemma position_map {A B} (g : A -> B) j :
  forall ts, position j (map (map g) ts) = map g (position j ts).
Proof.
  induction ts as [|t ts IH]; [reflexivity|].
  cbn [map]. rewrite !position_cons, lookup_map, IH.
  now destruct (t !! j).
Qed.





Lemma map_res_map {A B C} (f : B -> res C) (h : A -> B) :
  forall xs, map_res f (map h xs) = map_res (fun x => f (h x)) xs.
Proof.
  induction xs as [|x xs IH]; cbn; [reflexivity|]. now rewrite IH.
Qed.

Lemma multiple_loop {St Args} (f : nat -> Args -> M St (list ndarray)) args :
  forall xs acc s,
    for_in xs (fun i outputs => r <- f i args ;; ret (outputs ++ [map to_2d r]))
      acc s
    = (outs <- iterate f args xs ;; ret (acc ++ map (map to_2d) outs)) s.
Proof.
  induction xs as [|i xs IH]; intros acc s; cbn [for_in iterate].
  - rewrite bind_ret_l. unfold ret. now rewrite app_nil_r.
  - rewrite !bind_assoc. apply bind_ext. intros r s1.
    rewrite bind_ret_l, IH, bind_assoc. apply bind_ext. intros rs s2.
    rewrite bind_ret_l. cbn [map]. unfold ret.
    now rewrite <- app_assoc.
Qed.

Lemma apply_and_concat_multiple_run {St Args} n
    (f : nat -> Args -> M St (list ndarray)) args show_progress s :
  apply_and_concat_multiple n f args show_progress s
  = (outs <- iterate f args (range n) ;;
     lift (map_res column_stack (zip_star (map (map to_2d) outs)))) s.
Proof.
  unfold apply_and_concat_multiple, tqdm. unfold bind at 1.
  rewrite multiple_loop. unfold bind.
  destruct (iterate f args (range n) s) as [[rs|e] s1]; reflexivity.
Qed.


(** ** Compiled multi-stack executor *)

Lemma fold_append {A B} (g : A -> B) :
  forall l acc, fold_left (fun lst a => lst ++ [g a]) l acc = acc ++ map g l.
Proof.
  induction l as [|a l IH]; intros acc; cbn; [now rewrite app_nil_r|].
  now rewrite IH, <- app_assoc.
Qed.

Lemma to_2d_multiple_nb_map (r : list ndarray) :
  to_2d_multiple_nb r = map to_2d r.
Proof.
  unfold to_2d_multiple_nb. rewrite fold_append. cbn [app].
  apply map_ext. apply to_2d_one_nb_eq.
Qed.

Lemma alloc_loop {St} (junk : nat -> nat -> nat -> Z) n (srcs : list ndarray) :
  forall rest k acc (s : St),
    drop k srcs = rest ->
    for_in (seq k (length rest))
      (fun j outputs =>
         o <- getitem srcs j ;;
         ret (outputs ++ [Np.empty (junk j) (shape0 o) (n * shape1 o)
                            (dtype_of o)])) acc s
    = (Ok (acc ++ imap (fun j o => Np.empty (junk (k + j)) (shape0 o)
                                     (n * shape1 o) (dtype_of o)) rest), s).
Proof.
  induction rest as [|o rest IH]; intros k acc s Hd; cbn [length seq for_in].
  - cbn. now rewrite app_nil_r.
  - destruct (drop_cons_inv _ _ _ _ Hd) as (Hk & Hd').
    unfold getitem at 1. rewrite Hk, bind_assoc, !bind_ret_l.
    rewrite (IH (S k) _ s Hd'). rewrite imap_cons, <- app_assoc. cbn [app].
    rewrite Nat.add_0_r. do 4 f_equal.
    apply imap_ext. intros j x _. cbn. now rewrite Nat.add_succ_r.
Qed.





Section Filled.
Context {St Args : Type}.
Variables (junk : nat -> nat -> nat -> Z) (n k : nat).
Variables (dts : nat -> dtype) (rows cols : nat -> nat).




End Filled.





(** ** Row-count mismatch in the compiled multi-stack executor *)

Lemma inner_loop_rows {St} i (srcs : list ndarray) j R :
  forall m k cur (s : St),
    rows_at j R cur ->
    match for_in (seq k m)
            (fun j outputs =>
               src <- getitem srcs j ;;
               buf <- getitem outputs j ;;
               buf' <- lift (setitem_cols buf (i * shape1 src)
                               ((i + 1) * shape1 src) src) ;;
               ret (<[j := buf']> outputs)) cur s with
    | (Ok cur', _) =>
        rows_at j R cur'
        /\ forall a, k <= j < k + m -> srcs !! j = Some (to_2d a) ->
             shape0 (to_2d a) = R \/ shape0 (to_2d a) = 1
    | (Raise _, _) => True
    end.
Proof.
  induction m as [|m IH]; intros k cur s HP; cbn [seq for_in].
  - cbn. split; [assumption|]. intros a Hj. lia.
  - unfold bind at 1.
    match goal with |- context [match ?m s with _ => _ end] =>
      destruct (m s) as [[cur1|e] s1] eqn:Ebody end; [|exact I].
    unfold getitem in Ebody.
    destruct (srcs !! k) as [src|] eqn:Hsrc; [|discriminate].
    rewrite bind_ret_l in Ebody.
    destruct (cur !! k) as [buf|] eqn:Hbuf; [|discriminate].
    rewrite bind_ret_l in Ebody. unfold bind, lift, ret in Ebody.
    destruct (setitem_cols buf (i * shape1 src) ((i + 1) * shape1 src) src)
      as [buf'|e] eqn:Hset; [|discriminate].
    injection Ebody as <- <-.
    destruct (setitem_cols_rank2 _ _ _ _ _ Hset) as (c1 & c2 & E1 & E2).
    assert (HP1 : rows_at j R (<[k := buf']> cur)).
    { destruct HP as (dt & cols & Hj). unfold rows_at.
      destruct (decide (k = j)) as [->|Hne].
      - rewrite list_lookup_insert_eq by (eapply lookup_lt_Some; eassumption).
        rewrite Hj in Hbuf. injection Hbuf as <-. cbn in E2. rewrite E2. eauto.
      - rewrite list_lookup_insert_ne by assumption. eauto. }
    specialize (IH (S k) _ s HP1).
    destruct (for_in (seq (S k) m) _ (<[k := buf']> cur) s)
      as [[cur'|e] s2]; [|exact I].
    destruct IH as (HP' & Hbad). split; [assumption|].
    intros a Hj Ha. destruct (decide (k = j)) as [->|Hne].
    + destruct HP as (dt & cols & Hcur). rewrite Hcur in Hbuf.
      injection Hbuf as <-. rewrite Ha in Hsrc. injection Hsrc as <-.
      destruct (Nat.eq_dec (shape0 (to_2d a)) R) as [|HR]; [now left|].
      destruct (Nat.eq_dec (shape0 (to_2d a)) 1) as [|H1]; [now right|].
      rewrite setitem_cols_bad_rows in Hset by assumption. discriminate.
    + apply Hbad; [lia|assumption].
Qed.

Lemma multiple_nb_loop_raises {St Args}
    (f : nat -> Args -> M St (list ndarray)) args
    (outputs_0 : list ndarray) i j R :
  i <> 0 ->
  (forall s r s', f i args s = (Ok r, s') ->
     exists a, r !! j = Some a
       /\ shape0 (to_2d a) <> R /\ shape0 (to_2d a) <> 1) ->
  forall xs bufs s,
    In i xs -> rows_at j R bufs ->
    raises
      (for_in xs
         (fun i outputs =>
            outputs_i <- (if i =? 0 then ret outputs_0
                          else r <- f i args ;; ret (to_2d_multiple_nb r)) ;;
            for_in (range (length outputs_i))
              (fun j outputs =>
                 src <- getitem outputs_i j ;;
                 buf <- getitem outputs j ;;
                 buf' <- lift (setitem_cols buf (i * shape1 src)
                                 ((i + 1) * shape1 src) src) ;;
                 ret (<[j := buf']> outputs))
              outputs) bufs) s.
Proof.
  intros Hi Hbad. unfold raises.
  induction xs as [|x xs IH]; intros bufs s Hin HP; [destruct Hin|].
  cbn [for_in]. unfold bind at 1.
  match goal with |- context [match ?m s with _ => _ end] =>
    destruct (m s) as [[bufs'|e] s1] eqn:Ebody end; [|eauto].
  assert (HP' : rows_at j R bufs' /\ x <> i).
  { unfold bind at 1 in Ebody.
    destruct (x =? 0) eqn:Ex.
    - apply Nat.eqb_eq in Ex. unfold ret at 1 in Ebody. cbv beta iota in Ebody.
      pose proof (inner_loop_rows x outputs_0 j R (length outputs_0) 0 bufs s HP)
        as Hin'.
      unfold range in Ebody. rewrite Ebody in Hin'.
      split; [apply Hin'|congruence].
    - unfold bind in Ebody at 1.
      destruct (f x args s) as [[r|e] s0] eqn:Ef; [|discriminate].
      unfold ret at 1 in Ebody. cbv beta iota in Ebody.
      rewrite to_2d_multiple_nb_map in Ebody.
      pose proof (inner_loop_rows x (map to_2d r) j R
                    (length (map to_2d r)) 0 bufs s0 HP) as Hin'.
      unfold range in Ebody. rewrite Ebody in Hin'.
      destruct Hin' as (HP1 & Hrows). split; [assumption|].
      intros ->. destruct (Hbad _ _ _ Ef) as (a & Ha & HR & H1).
      destruct (Hrows a) as [|]; try contradiction.
      + apply lookup_lt_Some in Ha. rewrite length_map. lia.
      + now rewrite lookup_map, Ha. }
  destruct HP' as (HP' & Hne).
  apply IH; [|assumption]. destruct Hin as [->|Hin]; [congruence|assumption].
Qed.

Lemma multiple_nb_bad_rows_raises {St Args} junk n
    (f : nat -> Args -> M St (list ndarray)) args i j R s :
  0 < i < n ->
  (forall s r s', f 0 args s = (Ok r, s') ->
     exists a, r !! j = Some a /\ shape0 (to_2d a) = R) ->
  (forall s r s', f i args s = (Ok r, s') ->
     exists a, r !! j = Some a
       /\ shape0 (to_2d a) <> R /\ shape0 (to_2d a) <> 1) ->
  raises (apply_and_concat_multiple_nb junk n f args) s.
Proof.
  intros Hi H0 Hbad. unfold apply_and_concat_multiple_nb, raises.
  unfold bind at 1.
  destruct (f 0 args s) as [[r0|e] s1] eqn:Ef0; [|eauto].
  cbv zeta. rewrite to_2d_multiple_nb_map. unfold range at 1.
  rewrite (bind_ok _ _ _ _ _
             (alloc_loop junk n (map to_2d r0) (map to_2d r0) 0 [] s1 eq_refl)).
  cbn [app].
  apply (multiple_nb_loop_raises f args (map to_2d r0) i j R);
    try lia; try assumption.
  - unfold range. apply in_seq. lia.
  - destruct (H0 _ _ _ Ef0) as (a & Ha & HR). unfold rows_at.
    rewrite list_lookup_imap, lookup_map, Ha. cbn.
    unfold Np.empty. rewrite HR. eauto.
Qed.

(** ** Zero iterations *)

Lemma imap_empty_zero junk (srcs : list ndarray) :
  imap (fun j o => Np.empty (junk (0 + j)) (shape0 o) (0 * shape1 o)
                     (dtype_of o)) srcs
  = map (fun o => Array2d (dtype_of o) (shape0 o) []) srcs.
Proof.
  change (map ?f srcs) with (f <$> srcs). rewrite <- imap_const.
  apply imap_ext. intros j o _. reflexivity.
Qed.

(** C2 (as the code has it): with [n = 0] the discard executors are no-ops
    that never invoke the apply function, and the sequential single-stack
    executor raises ValueError without invoking it; the sequential
    multi-stack executor returns the empty list, and the compiled executors
    invoke the apply function once, at index 0, and return buffers of its
    row count and dtype with zero columns. *)
Theorem zero_iterations {St Args R} (junk : nat -> nat -> Z)
    (junks : nat -> nat -> nat -> Z) (g : nat -> Args -> M St R)
    (f : nat -> Args -> M St ndarray) (fs : nat -> Args -> M St (list ndarray))
    (args : Args) (show_progress : bool) (s : St) :
  apply_and_concat_none 0 g args show_progress s = (Ok tt, s)
  /\ apply_and_concat_none_nb 0 g args s = (Ok tt, s)
  /\ apply_and_concat_one 0 f args show_progress s = (Raise ValueError, s)
  /\ apply_and_concat_multiple 0 fs args show_progress s = (Ok [], s)
  /\ apply_and_concat_one_nb junk 0 f args s
     = (r0 <- f 0 args ;;
        ret (Array2d (dtype_of r0) (shape0 r0) [])) s
  /\ apply_and_concat_multiple_nb junks 0 fs args s
     = (r0 <- fs 0 args ;;
        ret (map (fun o => Array2d (dtype_of o) (shape0 o) [])
               (map to_2d r0))) s.
Proof.
  repeat apply conj; try reflexivity.
  - unfold apply_and_concat_one_nb. apply bind_ext. intros r0 s1.
    cbn [range seq for_in Nat.mul]. unfold Np.empty. cbn [seq map].
    rewrite to_2d_one_nb_eq. now destruct r0.
  - unfold apply_and_concat_multiple_nb. apply bind_ext. intros r0 s1.
    cbv zeta. rewrite to_2d_multiple_nb_map. unfold range at 1.
    rewrite (bind_ok _ _ _ _ _
               (alloc_loop junks 0 (map to_2d r0) (map to_2d r0) 0 [] s1
                  eq_refl)).
    cbn [app range seq for_in]. now rewrite imap_empty_zero.
Qed.

(** C2, as stated, fails: with [n = 0] the compiled single-stack executor
    returns a buffer of zero columns, the sequential multi-stack executor an
    empty list, and the compiled multi-stack executor a list of buffers of
    zero columns; none of them raises. *)
Lemma zero_iterations_return :
  apply_and_concat_one_nb Samples.no_junk 0 Samples.column_of_index tt 0
    = (Ok (Array2d int64 2 []), 1)
  /\ apply_and_concat_multiple 0 Samples.pair_of_index tt false 0 = (Ok [], 0)
  /\ apply_and_concat_multiple_nb Samples.no_junks 0 Samples.pair_of_index tt 0
     = (Ok [Array2d int64 2 []; Array2d int8 2 []], 1)
  /\ ~ raises (apply_and_concat_one_nb Samples.no_junk 0
                 Samples.column_of_index tt) 0
  /\ ~ raises (apply_and_concat_multiple 0 Samples.pair_of_index tt false) 0
  /\ ~ raises (apply_and_concat_multiple_nb Samples.no_junks 0
                 Samples.pair_of_index tt) 0.
Proof.
  repeat apply conj; try reflexivity;
    intros (e & s' & H); vm_compute in H; discriminate.
Qed.

(** ** Mismatching iterations in the compiled executors *)

Lemma dtype_drift_rejected {St Args} (f : nat -> Args -> M St ndarray) args
    sig i :
  infers f args sig -> dtype_drift f args i -> sig = None.
Proof.
  intros Hinf (s0 & r0 & s0' & si & ri & si' & H0 & Hi & Hne).
  destruct sig as [[dt nd]|]; [exfalso|reflexivity].
  destruct (Hinf dt nd eq_refl _ _ _ _ H0) as (E0 & _).
  destruct (Hinf dt nd eq_refl _ _ _ _ Hi) as (Ei & _).
  congruence.
Qed.

Lemma position_dtype_drift_rejected {St Args}
    (fs : nat -> Args -> M St (list ndarray)) args sig i j :
  infers_tuple fs args sig -> position_dtype_drift fs args i j -> sig = None.
Proof.
  intros Hinf (s0 & r0 & s0' & si & ri & si' & a0 & ai & H0 & Hi & Ha0 & Hai
               & Hne).
  destruct sig as [[[dt nd] k]|]; [exfalso|reflexivity].
  destruct (Hinf dt nd k eq_refl _ _ _ _ H0) as (_ & F0).
  destruct (Hinf dt nd k eq_refl _ _ _ _ Hi) as (_ & Fi).
  rewrite Forall_forall in F0, Fi.
  destruct (F0 a0 (list_elem_of_lookup_2 _ _ _ Ha0)) as (E0 & _).
  destruct (Fi ai (list_elem_of_lookup_2 _ _ _ Hai)) as (Ei & _).
  congruence.
Qed.

(** C3 (as the code has it): for [n >= 2], when some iteration [i > 0] of a
    compiled executor produces a buffer whose row count differs from
    iteration 0's and is not 1, or whose dtype differs from iteration 0's,
    the call of the executor raises and returns no buffer: the dtype is
    refused when the apply function is compiled, before any iteration runs,
    the row count by the slice assignment. *)
Theorem compiled_mismatch_raises {St Args} (sig : signature)
    (sigs : tuple_signature) (junk : nat -> nat -> Z)
    (junks : nat -> nat -> nat -> Z) (n i j R : nat)
    (f : nat -> Args -> M St ndarray) (fs : nat -> Args -> M St (list ndarray))
    (args : Args) (s : St) :
  0 < i < n ->
  infers f args sig ->
  infers_tuple fs args sigs ->
  mismatch f args i R ->
  position_mismatch fs args i j R ->
  2 <= n
  /\ raises (jit_apply_and_concat_one_nb sig junk n f args) s
  /\ raises (jit_apply_and_concat_multiple_nb sigs junks n fs args) s
  /\ (dtype_drift f args i ->
      jit_apply_and_concat_one_nb sig junk n f args s = (Raise TypingError, s))
  /\ (position_dtype_drift fs args i j ->
      jit_apply_and_concat_multiple_nb sigs junks n fs args s
      = (Raise TypingError, s)).
Proof.
  intros Hi Hinf Hinfs Hm Hms. split; [lia|]. repeat apply conj.
  - destruct sig as [ty|] eqn:Esig; [|exists TypingError, s; reflexivity].
    destruct Hm as [(H0 & Hbad)|Hd].
    + now apply (one_nb_bad_rows_raises junk n f args i R).
    + apply (dtype_drift_rejected f args _ i Hinf) in Hd. discriminate.
  - destruct sigs as [ty|] eqn:Esig; [|exists TypingError, s; reflexivity].
    destruct Hms as [(H0 & Hbad)|Hd].
    + now apply (multiple_nb_bad_rows_raises junks n fs args i j R).
    + apply (position_dtype_drift_rejected fs args _ i j Hinfs) in Hd.
      discriminate.
  - intros Hd. now rewrite (dtype_drift_rejected f args sig i Hinf Hd).
  - intros Hd.
    now rewrite (position_dtype_drift_rejected fs args sigs i j Hinfs Hd).
Qed.

(** C3, as stated, fails: the apply function is accepted by the compiler
    (its results are rank-2 [int64] arrays), the single row of iteration 1
    differs from the 2 rows of iteration 0, and the compiled executor
    returns a buffer all the same, with the single row repeated. *)
Lemma compiled_row_broadcast_returns :
  infers Samples.one_row_later tt (Some (int64, 2))
  /\ (exists a0 a1 s0 s1 s2,
        Samples.one_row_later 0 tt s0 = (Ok a0, s1)
        /\ Samples.one_row_later 1 tt s1 = (Ok a1, s2)
        /\ shape0 (to_2d_one_nb a1) <> shape0 (to_2d_one_nb a0))
  /\ jit_apply_and_concat_one_nb (Some (int64, 2)) Samples.no_junk 2
       Samples.one_row_later tt 0
     = (Ok (Array2d int64 2 [[5; 6]; [7; 7]]%Z), 2)
  /\ apply_and_concat_one_nb Samples.no_junk 2 Samples.one_row_later tt 0
     = (Ok (Array2d int64 2 [[5; 6]; [7; 7]]%Z), 2)
  /\ ~ raises (jit_apply_and_concat_one_nb (Some (int64, 2)) Samples.no_junk 2
                 Samples.one_row_later tt) 0.
Proof.
  repeat apply conj; try reflexivity.
  - intros dt nd Hsig i s r s' H. injection Hsig as <- <-.
    unfold Samples.one_row_later in H. injection H as <- _.
    now destruct (i =? 0).
  - eexists _, _, 0, _, _. repeat split. cbn. lia.
  - intros (e & s' & H); vm_compute in H; discriminate.
Qed.


(** ** The theorems at sample inputs *)

Section SampleRuns.
Import Samples.

Lemma column_of_index_homogeneous :
  homogeneous_below 3 column_of_index tt int64 2 1.
Proof.
  intros i s r s' _ H. unfold column_of_index in H.
  injection H as <- <-. repeat split.
Defined.

Lemma apply_and_concat_none_calls_witness :
  returns_below 3 column_of_index tt
  /\ exists s',
       apply_and_concat_none 3 (logged column_of_index) tt false (0, [])
         = (Ok tt, (s', [] ++ seq 0 3))
       /\ apply_and_concat_none_nb 3 (logged column_of_index) tt (0, [])
         = (Ok tt, (s', [] ++ seq 0 3))
       /\ length (seq 0 3) = 3.
Proof.
  assert (H : returns_below 3 column_of_index tt).
  { intros i s _. eexists _, _. reflexivity. }
  split; [exact H|].
  exact (apply_and_concat_none_calls 3 column_of_index tt false 0 [] H).
Defined.

Lemma apply_and_concat_one_blocks_witness :
  apply_and_concat_one 3 column_of_index tt false 0
    = (Ok (Array2d int64 2 [[0; 7]; [1; 7]; [2; 7]]%Z), 3)
  /\ length column_outs = 3.
Proof.
  destruct (apply_and_concat_one_blocks 3 column_of_index tt false 0 3
              column_outs 2) as (H1 & H2 & _).
  - lia.
  - reflexivity.
  - repeat constructor.
  - split; [exact H1|exact H2].
Defined.

Lemma apply_and_concat_one_nb_refines_witness :
  1 <= 3
  /\ homogeneous_below 3 column_of_index tt int64 2 1
  /\ apply_and_concat_one_nb no_junk 3 column_of_index tt 0
     = apply_and_concat_one 3 column_of_index tt false 0.
Proof.
  split; [lia|]. split; [exact column_of_index_homogeneous|].
  apply (apply_and_concat_one_nb_refines no_junk 3 column_of_index tt false
           0 int64 2 1); [lia|exact column_of_index_homogeneous].
Defined.

Lemma apply_and_concat_one_ray_ordered_witness :
  Permutation [2; 0; 1] (range 3)
  /\ run_ntimes_using_ray [2; 0; 1] 3 task_of_index tt
     = map_res (fun i => task_of_index i tt) (range 3)
  /\ apply_and_concat_one 3 (pure_call task_of_index) tt false 0
     = (apply_and_concat_one_ray [2; 0; 1] 3 task_of_index tt, 0).
Proof.
  assert (Hp : Permutation [2; 0; 1] (range 3)).
  { exact (perm_trans (perm_swap 0 2 [1]) (perm_skip 0 (perm_swap 1 2 []))). }
  split; [exact Hp|].
  exact (apply_and_concat_one_ray_ordered [2; 0; 1] 3 task_of_index tt false
           0 Hp).
Defined.

Lemma combine_and_concat_blocks_witness :
  combine_and_concat [1; 2]%Z [[3; 4]; [5; 6]]%Z side_by_side tt false 0
  = (Ok (Array2d int64 2 [[1; 2]; [3; 4]; [1; 2]; [5; 6]]%Z), 2).
Proof.
  destruct (combine_and_concat_blocks [1; 2]%Z [[3; 4]; [5; 6]]%Z
              side_by_side tt false 0 2
              [Array2d int64 2 [[1; 2]; [3; 4]]%Z;
               Array2d int64 2 [[1; 2]; [5; 6]]%Z] 2) as (_ & H & _).
  - cbn. lia.
  - reflexivity.
  - repeat constructor.
  - exact H.
Defined.


Lemma compiled_executors_call_log_witness :
  [0; 1; 2] = [] ++ 0 :: seq 1 (3 - 1)
  /\ [0; 1; 2] = [] ++ 0 :: seq 1 (3 - 1)
  /\ length (0 :: seq 1 (3 - 1)) = Nat.max 3 1.
Proof.
  apply (compiled_executors_call_log no_junk no_junks 3 column_of_index
           pair_of_index tt 0 []
           (Array2d int64 2 [[0; 7]; [1; 7]; [2; 7]]%Z) 3 [0; 1; 2]
           [Array2d int64 2 [[0; 1]; [1; 1]; [2; 1]]%Z;
            Array2d int8 2 [[0; 2]; [1; 2]; [2; 2]]%Z] 3 [0; 1; 2]);
    reflexivity.
Defined.

Lemma compiled_mismatch_raises_witness :
  (infers three_rows_later tt (Some (int64, 2))
   /\ infers_tuple CompiledSamples.taller_pair_later tt (Some (int64, 2, 2))
   /\ raises (jit_apply_and_concat_one_nb (Some (int64, 2)) no_junk 2
                three_rows_later tt) 0
   /\ raises (jit_apply_and_concat_multiple_nb (Some (int64, 2, 2)) no_junks
                2 CompiledSamples.taller_pair_later tt) 0)
  /\ (dtype_drift wider_dtype_later tt 1
      /\ raises (jit_apply_and_concat_one_nb None no_junk 2
                   wider_dtype_later tt) 0).
Proof.
  assert (Hinf : infers three_rows_later tt (Some (int64, 2))).
  { intros dt nd Hsig i s r s' H. injection Hsig as <- <-.
    injection H as <- _. now destruct (i =? 0). }
  assert (Hinfs : infers_tuple CompiledSamples.taller_pair_later tt
                    (Some (int64, 2, 2))).
  { intros dt nd k Hsig i s r s' H. injection Hsig as <- <- <-.
    injection H as <- _.
    destruct (i =? 0); split; try reflexivity; repeat constructor. }
  assert (Hrows : mismatch three_rows_later tt 1 2).
  { left. split; intros s r s' H; injection H as <- <-; cbn;
      [reflexivity|lia]. }
  assert (Hrowss : position_mismatch CompiledSamples.taller_pair_later tt
                     1 1 2).
  { left. split; intros s r s' H; injection H as <- <-; eexists;
      (split; [reflexivity|]); cbn; [reflexivity|lia]. }
  assert (Hdrift : dtype_drift wider_dtype_later tt 1).
  { exists 0, (Array1d int8 [1; 2]%Z), 1, 0, (Array1d int64 [300; 4]%Z), 1.
    repeat split. cbn. discriminate. }
  split.
  - split; [exact Hinf|]. split; [exact Hinfs|].
    destruct (compiled_mismatch_raises (Some (int64, 2)) (Some (int64, 2, 2))
                no_junk no_junks 2 1 1 2 three_rows_later
                CompiledSamples.taller_pair_later tt 0
                ltac:(lia) Hinf Hinfs Hrows Hrowss) as (_ & H1 & H2 & _).
    split; [exact H1|exact H2].
  - split; [exact Hdrift|].
    destruct (compiled_mismatch_raises None (Some (int64, 2, 2))
                no_junk no_junks 2 1 1 2 wider_dtype_later
                CompiledSamples.taller_pair_later tt 0
                ltac:(lia) ltac:(intros dt nd Hsig; discriminate) Hinfs
                (or_intror Hdrift) Hrowss) as (_ & H1 & _).
    exact H1.
Defined.
End SampleRuns.

(** * Further properties of the module *)

(** ** Normalizers *)

(** [to_2d_multiple_nb] normalizes every element of its argument, keeping
    their number and order. *)
Theorem to_2d_multiple_nb_elementwise (a : list ndarray) :
  to_2d_multiple_nb a = map to_2d_one_nb a
  /\ length (to_2d_multiple_nb a) = length a
  /\ forall j, to_2d_multiple_nb a !! j = option_map to_2d_one_nb (a !! j).
Proof.
  assert (E : to_2d_multiple_nb a = map to_2d_one_nb a).
  { unfold to_2d_multiple_nb. now rewrite fold_append. }
  rewrite E. split; [reflexivity|]. split; [apply length_map|].
  intros j. apply lookup_map.
Qed.

(** ** Empty and failing inputs of the sequential executors *)

Lemma none_loop {St Args R} (f : nat -> Args -> M St R) args :
  forall xs u s,
    for_in xs (fun i (_ : unit) => _ <- f i args ;; ret tt) u s
    = (_ <- iterate f args xs ;; ret tt) s.
Proof.
  induction xs as [|i xs IH]; intros [] s; cbn [for_in iterate].
  - reflexivity.
  - rewrite !bind_assoc. apply bind_ext. intros r s1.
    rewrite bind_ret_l, IH, bind_assoc. apply bind_ext. intros rs s2.
    now rewrite bind_ret_l.
Qed.

Lemma none_run {St Args R} n (f : nat -> Args -> M St R) args show_progress s :
  apply_and_concat_none n f args show_progress s
  = (_ <- iterate f args (range n) ;; ret tt) s
  /\ apply_and_concat_none_nb n f args s
     = (_ <- iterate f args (range n) ;; ret tt) s.
Proof.
  unfold apply_and_concat_none, apply_and_concat_none_nb, tqdm.
  split; apply none_loop.
Qed.

Lemma emits_bind_nil {St A B} (m : M (St * list nat) A)
    (k : A -> M (St * list nat) B) l :
  emits m l -> (forall a, emits (k a) []) -> emits (bind m k) l.
Proof.
  intros Hm Hk. rewrite <- (app_nil_r l). now apply emits_bind.
Qed.

Lemma iterate_emits {St Args R} (f : nat -> Args -> M St R) args :
  forall xs, emits (iterate (logged f) args xs) xs.
Proof.
  induction xs as [|i xs IH]; cbn [iterate]; [apply emits_ret|].
  apply (emits_bind _ _ [i] xs); [apply emits_logged|]. intros r.
  apply emits_bind_nil; [exact IH|]. intros rs. apply emits_ret.
Qed.

Lemma iterate_raises_at {St Args R} (f : nat -> Args -> M St R) args i e :
  returns_below i f args -> raises_at f args i e ->
  forall len start s log,
    start <= i < start + len ->
    exists s',
      iterate (logged f) args (seq start len) (s, log)
      = (Raise e, (s', log ++ seq start (S i - start))).
Proof.
  intros Hret Hraise. induction len as [|len IH]; intros start s log Hi; [lia|].
  cbn [seq iterate]. destruct (decide (start = i)) as [->|Hne].
  - destruct (Hraise s) as (s' & Hf). exists s'.
    unfold bind, logged. cbn [fst snd]. rewrite Hf.
    replace (S i - i) with 1 by lia. reflexivity.
  - destruct (Hret start s ltac:(lia)) as (r & s1 & Hf).
    destruct (IH (S start) s1 (log ++ [start]) ltac:(lia)) as (s' & Hrun).
    exists s'. rewrite (bind_ok _ _ _ _ _ (logged_ok f start args s log r s1 Hf)).
    unfold bind at 1. rewrite Hrun. rewrite <- app_assoc.
    replace (S i - start) with (S (S i - S start)) by lia. reflexivity.
Qed.

(** The sequential executors stop at the first iteration that raises: when
    the apply function returns below index [i < n] and raises [e] at [i],
    they raise [e] having invoked exactly the indices [0 .. i], in order,
    and nothing after. *)
Theorem sequential_executors_fail_fast {St Args} (n i : nat) (e : exn)
    (f : nat -> Args -> M St ndarray) (fs : nat -> Args -> M St (list ndarray))
    (args : Args) (show_progress : bool) (s : St) (log : list nat) :
  i < n ->
  returns_below i f args -> raises_at f args i e ->
  returns_below i fs args -> raises_at fs args i e ->
  exists s1 s2,
    apply_and_concat_none n (logged f) args show_progress (s, log)
      = (Raise e, (s1, log ++ seq 0 (S i)))
    /\ apply_and_concat_none_nb n (logged f) args (s, log)
       = (Raise e, (s1, log ++ seq 0 (S i)))
    /\ apply_and_concat_one n (logged f) args show_progress (s, log)
       = (Raise e, (s1, log ++ seq 0 (S i)))
    /\ apply_and_concat_multiple n (logged fs) args show_progress (s, log)
       = (Raise e, (s2, log ++ seq 0 (S i))).
Proof.
  intros Hi Hret He Hrets Hes.
  destruct (iterate_raises_at f args i e Hret He n 0 s log ltac:(lia))
    as (s1 & H1).
  destruct (iterate_raises_at fs args i e Hrets Hes n 0 s log ltac:(lia))
    as (s2 & H2).
  rewrite Nat.sub_0_r in H1, H2. exists s1, s2.
  destruct (none_run n (logged f) args show_progress (s, log)) as (Hn & Hnb).
  rewrite Hn, Hnb, apply_and_concat_one_run, apply_and_concat_multiple_run.
  unfold bind, range. rewrite H1, H2. repeat split.
Qed.

(** Stacking adds no effect to the calls: the single-stack and multi-stack
    executors leave the caller's state as the discard executor does, and
    raise whatever the discard executor raises. *)
Theorem stacking_adds_no_effects {St Args} (n : nat)
    (f : nat -> Args -> M St ndarray) (fs : nat -> Args -> M St (list ndarray))
    (args : Args) (show_progress : bool) (s : St) :
  match apply_and_concat_none n f args show_progress s with
  | (Ok _, s') => snd (apply_and_concat_one n f args show_progress s) = s'
  | (Raise e, s') =>
      apply_and_concat_one n f args show_progress s = (Raise e, s')
  end
  /\ match apply_and_concat_none n fs args show_progress s with
     | (Ok _, s') =>
         snd (apply_and_concat_multiple n fs args show_progress s) = s'
     | (Raise e, s') =>
         apply_and_concat_multiple n fs args show_progress s = (Raise e, s')
     end.
Proof.
  destruct (none_run n f args show_progress s) as (-> & _).
  destruct (none_run n fs args show_progress s) as (-> & _).
  rewrite apply_and_concat_one_run, apply_and_concat_multiple_run.
  unfold bind.
  destruct (iterate f args (range n) s) as [[outs|e] s1];
    destruct (iterate fs args (range n) s) as [[outss|e'] s2];
    split; reflexivity.
Qed.

Lemma column_stack_mismatch a0 rest :
  Exists (fun o => shape0 (to_2d o) <> shape0 (to_2d a0)) rest ->
  column_stack (map to_2d (a0 :: rest)) = Raise ValueError.
Proof.
  intros Hex. unfold column_stack. rewrite map_expand_to_2d. cbn [map].
  assert (Hall : forallb (fun a => shape0 a =? shape0 (to_2d a0))
                   (map to_2d rest) = false).
  { induction Hex as [o l Ho | o l _ IH]; cbn [map forallb].
    - apply Nat.eqb_neq in Ho. now rewrite Ho.
    - rewrite IH. apply andb_false_r. }
  now rewrite Hall.
Qed.

(** The sequential single-stack executor meets a row-count mismatch only
    when it stacks: it first invokes the apply function at all [n] indices,
    then raises ValueError. *)
Theorem apply_and_concat_one_row_mismatch {St Args} (n : nat)
    (f : nat -> Args -> M St ndarray) (args : Args) (show_progress : bool)
    (s s' : St) (log log' : list nat) (a0 : ndarray) (rest : list ndarray) :
  iterate (logged f) args (range n) (s, log) = (Ok (a0 :: rest), (s', log')) ->
  Exists (fun o => shape0 (to_2d o) <> shape0 (to_2d a0)) rest ->
  apply_and_concat_one n (logged f) args show_progress (s, log)
    = (Raise ValueError, (s', log'))
  /\ log' = log ++ seq 0 n.
Proof.
  intros Hrun Hex. split.
  - rewrite apply_and_concat_one_run. unfold bind. rewrite Hrun.
    unfold lift. now rewrite column_stack_mismatch.
  - exact (iterate_emits f args (range n) s log _ s' log' Hrun).
Qed.

(** ** Empty inputs of the combine adapters *)

(** On an empty sequence the combine adapters raise without invoking the
    combine function: [combine_multiple] and its compiled variant raise
    IndexError (from [objs[0]]), [combine_and_concat] raises ValueError
    (there is nothing to stack) and [combine_and_concat_nb] raises
    IndexError (it selects [others[0]] before its loop). *)
Theorem combine_adapters_empty {St A Obj Other CArgs}
    (junk : nat -> nat -> Z) (f : A -> A -> CArgs -> M St A) (obj : Obj)
    (combine_func : Obj -> Other -> CArgs -> M St ndarray)
    (args : CArgs) (show_progress : bool) (s : St) :
  combine_multiple [] f args s = (Raise IndexError, s)
  /\ combine_multiple_nb [] f args s = (Raise IndexError, s)
  /\ combine_and_concat obj [] combine_func args show_progress s
     = (Raise ValueError, s)
  /\ combine_and_concat_nb junk obj [] combine_func args s
     = (Raise IndexError, s).
Proof. repeat split. Qed.

(** ** Tuples of unequal length in the sequential multi-stack executor *)

Lemma min_length_cons {A} (xs : list A) rest :
  rest <> [] -> min_length (xs :: rest) = Nat.min (length xs) (min_length rest).
Proof. destruct rest; [congruence|reflexivity]. Qed.

(** [zip] over tuples is their transposition up to the shortest one. *)
Lemma zip_star_min {A} :
  forall xss : list (list A),
    zip_star xss = map (fun j => position j xss) (seq 0 (min_length xss)).
Proof.
  induction xss as [|xs rest IH]; [reflexivity|].
  cbn [zip_star min_length]. destruct rest as [|ys rest].
  - apply list_eq. intros i. rewrite !lookup_map.
    destruct (decide (i < length xs)) as [Hi|Hi].
    + rewrite lookup_seq_lt by assumption.
      destruct (lookup_lt_is_Some_2 xs i Hi) as (x & Hx).
      rewrite Hx. cbn. now rewrite Hx.
    + rewrite lookup_seq_ge by lia.
      rewrite (lookup_ge_None_2 xs i) by lia. reflexivity.
  - rewrite IH. set (m := min_length (ys :: rest)).
    apply list_eq. intros i. rewrite lookup_zip_with, !lookup_map.
    destruct (decide (i < length xs)) as [Hi|Hi].
    + destruct (lookup_lt_is_Some_2 xs i Hi) as (x & Hx). rewrite Hx.
      destruct (decide (i < m)) as [Hm|Hm].
      * rewrite !lookup_seq_lt by lia. cbn. now rewrite Hx.
      * rewrite !lookup_seq_ge by lia. reflexivity.
    + rewrite (lookup_ge_None_2 xs i) by lia.
      rewrite (lookup_seq_ge 0 (Nat.min _ _)) by lia. reflexivity.
Qed.

Lemma min_length_map {A B} (g : A -> B) :
  forall xss : list (list A), min_length (map (map g) xss) = min_length xss.
Proof.
  induction xss as [|xs rest IH]; [reflexivity|].
  cbn [map min_length]. rewrite length_map.
  destruct rest as [|ys rest]; [reflexivity|].
  cbn [map] in *. now rewrite IH.
Qed.

Lemma map_res_length {A B} (f : A -> res B) :
  forall xs ys, map_res f xs = Ok ys -> length ys = length xs.
Proof.
  induction xs as [|x xs IH]; intros ys H; cbn in H.
  - now inversion H.
  - destruct (f x) as [y|e]; [|discriminate]. cbn in H.
    destruct (map_res f xs) as [ys'|e] eqn:E; [|discriminate].
    inversion H; subst. cbn. f_equal. now apply IH.
Qed.

(** When the tuples of the iterations differ in length, the sequential
    multi-stack executor does not raise: it stacks the positions below the
    length of the shortest tuple and drops the elements beyond, so it
    returns as many buffers as the shortest tuple has elements. *)
Theorem apply_and_concat_multiple_shortest {St Args} (n : nat)
    (fs : nat -> Args -> M St (list ndarray)) (args : Args)
    (show_progress : bool) (s s' : St) (outs : list (list ndarray)) :
  iterate fs args (range n) s = (Ok outs, s') ->
  apply_and_concat_multiple n fs args show_progress s
    = (map_res (fun j => column_stack (map to_2d (position j outs)))
         (seq 0 (min_length outs)), s')
  /\ match fst (apply_and_concat_multiple n fs args show_progress s) with
     | Ok bufs => length bufs = min_length outs
     | Raise _ => True
     end.
Proof.
  intros Hrun.
  assert (E : apply_and_concat_multiple n fs args show_progress s
              = (map_res (fun j => column_stack (map to_2d (position j outs)))
                   (seq 0 (min_length outs)), s')).
  { rewrite apply_and_concat_multiple_run. unfold bind. rewrite Hrun.
    unfold lift. rewrite zip_star_min, min_length_map, map_res_map.
    f_equal. apply map_res_ext_in. intros j _. now rewrite position_map. }
  split; [exact E|]. rewrite E. cbn [fst].
  destruct (map_res _ (seq 0 (min_length outs))) as [bufs|e] eqn:Hb;
    [|exact I].
  apply map_res_length in Hb. now rewrite length_seq in Hb.
Qed.

(** ** Distributed multi-stack and combine executors *)

Lemma zip_cons_map {A B} (g : A -> B) :
  forall (xs : list A) (yss : list (list A)),
    zip_with cons (map g xs) (map (map g) yss)
    = map (map g) (zip_with cons xs yss).
Proof.
  induction xs as [|x xs IH]; intros [|ys yss]; cbn; try reflexivity.
  now rewrite IH.
Qed.

Lemma zip_star_map {A B} (g : A -> B) :
  forall xss : list (list A),
    zip_star (map (map g) xss) = map (map g) (zip_star xss).
Proof.
  induction xss as [|xs rest IH]; [reflexivity|].
  cbn [map zip_star]. destruct rest as [|ys rest].
  - cbn [map]. rewrite !map_map. reflexivity.
  - cbn [map] in *. rewrite IH. apply zip_cons_map.
Qed.

Lemma column_stack_to_2d_any (l : list ndarray) :
  column_stack (map to_2d l) = column_stack l.
Proof.
  unfold column_stack. rewrite map_expand_to_2d.
  replace (map to_2d l) with (map expand_dims_axis1 l); [reflexivity|].
  apply map_ext. now intros [].
Qed.

(** The distributed multi-stack executor stacks the tuples it gets without
    normalizing their elements first; this is the same as stacking the
    normalized tuples, so that, with the results in index order, it returns
    what the sequential multi-stack executor returns on the same effect-free
    apply function, whatever the order in which the tasks complete. *)
Theorem apply_and_concat_multiple_ray_ordered {St Args} (completion : list nat)
    (n : nat) (func : nat -> Args -> res (list ndarray)) (args : Args)
    (show_progress : bool) (s : St) :
  Permutation completion (range n) ->
  apply_and_concat_multiple_ray completion n func args
    = res_bind (run_ntimes_using_ray completion n func args)
        (fun results =>
           map_res column_stack (zip_star (map (map to_2d) results)))
  /\ apply_and_concat_multiple n (pure_call func) args show_progress s
     = (apply_and_concat_multiple_ray completion n func args, s).
Proof.
  intros Hp. split.
  { unfold apply_and_concat_multiple_ray.
    destruct (run_ntimes_using_ray completion n func args) as [results|e];
      [|reflexivity].
    cbn [res_bind]. rewrite zip_star_map, map_res_map.
    apply map_res_ext_in. intros t _. symmetry.
    apply column_stack_to_2d_any. }
  rewrite apply_and_concat_multiple_run. unfold apply_and_concat_multiple_ray.
  rewrite run_ntimes_ordered.
  - unfold bind. rewrite iterate_pure.
    destruct (map_res (fun i => func i args) (range n)) as [outs|e];
      [|reflexivity].
    cbn [res_bind]. unfold lift. f_equal.
    rewrite zip_star_map, map_res_map. apply map_res_ext_in.
    intros t _. apply column_stack_to_2d_any.
  - intros i Hi. apply (Permutation_in _ (Permutation_sym Hp)).
    unfold range. apply in_seq. lia.
Qed.

Lemma iterate_ext {St Args Args' R} (f : nat -> Args -> M St R)
    (g : nat -> Args' -> M St R) args args' :
  (forall i s, f i args s = g i args' s) ->
  forall xs s, iterate f args xs s = iterate g args' xs s.
Proof.
  intros H. induction xs as [|i xs IH]; intros s; cbn [iterate]; [reflexivity|].
  unfold bind. rewrite H. destruct (g i args' s) as [[r|e] s1]; [|reflexivity].
  now rewrite IH.
Qed.

(** [combine_and_concat_ray] returns what [combine_and_concat] returns on
    the same effect-free combine function, whatever the order in which the
    tasks complete. *)
Theorem combine_and_concat_ray_ordered {St Obj Other CArgs}
    (completion : list nat) (obj : Obj) (others : list Other)
    (combine_func : Obj -> Other -> CArgs -> res ndarray) (args : CArgs)
    (show_progress : bool) (s : St) :
  Permutation completion (range (length others)) ->
  combine_and_concat obj others
    (fun obj o args => lift (combine_func obj o args)) args show_progress s
  = (combine_and_concat_ray completion obj others combine_func args, s).
Proof.
  intros Hp. unfold combine_and_concat, combine_and_concat_ray.
  unfold apply_and_concat_one_ray.
  rewrite run_ntimes_ordered.
  - rewrite apply_and_concat_one_run. unfold bind.
    rewrite (iterate_ext _ (pure_call select_and_combine_task) _
               (obj, others, combine_func, args)).
    + rewrite iterate_pure.
      now destruct (map_res _ (range (length others))).
    + intros i s0. unfold select_and_combine, select_and_combine_task,
        pure_call, getitem, lift.
      destruct (others !! i); reflexivity.
  - intros i Hi. apply (Permutation_in _ (Permutation_sym Hp)).
    unfold range. apply in_seq. lia.
Qed.

(** ** The compiled single-stack executor on homogeneous outputs *)

Lemma in_range_lt n i : In i (range n) -> i < n.
Proof. unfold range. intros H. apply in_seq in H. lia. Qed.

Lemma homogeneous_outs {St Args} n (f : nat -> Args -> M St ndarray) args
    dt R c xs s outs s' :
  homogeneous_below n f args dt R c ->
  (forall i, In i xs -> i < n) ->
  iterate f args xs s = (Ok outs, s') ->
  Forall (fun o => dtype_of o = dt /\ shape0 (to_2d o) = R) outs.
Proof.
  intros H Hxs Hrun. eapply iterate_Forall; [|exact Hrun].
  intros i s0 r s1 Hi Hf.
  destruct (H i s0 r s1 (Hxs i Hi) Hf) as (Hd & HR & _).
  rewrite to_2d_one_nb_eq in *. now rewrite dtype_of_to_2d in Hd.
Qed.

Lemma one_nb_run {St Args} junk n (f : nat -> Args -> M St ndarray) args s
    dt R c :
  1 <= n -> homogeneous_below n f args dt R c ->
  apply_and_concat_one_nb junk n f args s
  = (outs <- iterate f args (range n) ;;
     ret (Array2d dt R (concat (map (fun o => columns_of (to_2d o)) outs)))) s.
Proof.
  intros Hn H. unfold apply_and_concat_one_nb, range.
  destruct n as [|n']; [lia|]. cbn [seq iterate for_in].
  rewrite bind_assoc. apply bind_cong. intros r0 s1 Hf0.
  destruct (homogeneous_rank2 _ f args dt R c 0 s r0 s1 H ltac:(lia) Hf0)
    as (cs0 & E0 & Hc0).
  rewrite E0. cbn [shape0 shape1 dtype_of Nat.eqb].
  destruct (empty_columns junk R (S n' * length cs0) dt) as (J & EJ & HJ).
  rewrite EJ, bind_assoc, bind_ret_l. cbn [shape1].
  change (Array2d dt R J) with (Array2d dt R ([] ++ J)).
  change (0 * length cs0) with 0.
  replace ((0 + 1) * length cs0) with (0 + length cs0) by lia.
  rewrite setitem_cols_block by (cbn; lia).
  rewrite bind_lift_ok. cbn [app].
  rewrite (one_nb_loop (S n') f args dt R c) by
    (try assumption; rewrite ?length_drop; subst c; lia).
  rewrite bind_assoc. apply bind_ext. intros rs s2.
  rewrite bind_ret_l. unfold ret. cbn [map concat].
  rewrite <- to_2d_one_nb_eq, E0. cbn [columns_of].
  rewrite drop_drop, drop_ge by (subst c; lia).
  now rewrite app_nil_r.
Qed.

Lemma one_run_homogeneous {St Args} n (f : nat -> Args -> M St ndarray) args
    show_progress s dt R c :
  1 <= n -> homogeneous_below n f args dt R c ->
  apply_and_concat_one n f args show_progress s
  = (outs <- iterate f args (range n) ;;
     ret (Array2d dt R (concat (map (fun o => columns_of (to_2d o)) outs)))) s.
Proof.
  intros Hn H. rewrite apply_and_concat_one_run.
  apply bind_cong. intros outs s' Hrun.
  assert (Hlen := iterate_length _ _ _ _ _ _ Hrun).
  unfold range in Hlen. rewrite length_seq in Hlen.
  assert (Hall := homogeneous_outs n f args dt R c _ _ _ _ H
                    (in_range_lt n) Hrun).
  destruct outs as [|o outs]; [cbn in Hlen; lia|].
  unfold lift, ret.
  rewrite (column_stack_to_2d R)
    by (eapply Forall_impl; [exact Hall|]; now intros ? []).
  rewrite (hstack_homogeneous dt)
    by (eapply Forall_impl; [exact Hall|]; now intros ? []).
  reflexivity.
Qed.

Lemma select_nb_homogeneous {St Obj Other CArgs}
    (cf : Obj -> Other -> CArgs -> M St ndarray) obj (others : list Other)
    args dt R c :
  homogeneous_combine cf obj others args dt R c ->
  homogeneous_below (length others) select_and_combine_nb
    (obj, others, cf, args) dt R c
  /\ homogeneous_below (length others) select_and_combine
       (obj, others, cf, args) dt R c.
Proof.
  intros H. split; intros i s r s' Hi Hf;
    unfold select_and_combine_nb, select_and_combine, getitem in Hf;
    destruct (others !! i) as [o|] eqn:Ho; try discriminate;
    rewrite bind_ret_l in Hf;
    apply (H o s r s'); try assumption;
    apply list_elem_of_In; eapply list_elem_of_lookup_2; eassumption.
Qed.

(** For a non-empty [others] and combine results of one dtype, row count
    and column count, [combine_and_concat_nb] returns what
    [combine_and_concat] returns: the same buffer or exception and the same
    final state. *)
Theorem combine_and_concat_nb_refines {St Obj Other CArgs}
    (junk : nat -> nat -> Z) (obj : Obj) (others : list Other)
    (cf : Obj -> Other -> CArgs -> M St ndarray) (args : CArgs)
    (show_progress : bool) (s : St) (dt : dtype) (R c : nat) :
  1 <= length others ->
  homogeneous_combine cf obj others args dt R c ->
  combine_and_concat_nb junk obj others cf args s
  = combine_and_concat obj others cf args show_progress s.
Proof.
  intros Hn H. destruct (select_nb_homogeneous cf obj others args dt R c H)
    as (Hnb & Hseq).
  unfold combine_and_concat_nb, combine_and_concat.
  rewrite (one_nb_run junk _ _ _ s dt R c Hn Hnb).
  rewrite (one_run_homogeneous _ _ _ show_progress s dt R c Hn Hseq).
  reflexivity.
Qed.

(** ** What the compiled executors keep of the pre-allocated buffers *)

Lemma setitem_cols_layout out a b src out' :
  setitem_cols out a b src = Ok out' ->
  layout_of out' = layout_of out /\ ndim out' = 2.
Proof.
  unfold setitem_cols. destruct out as [dt data | dt R cols]; [discriminate|].
  destruct (as_rows_cols src) as [sr scols].
  match goal with |- (if ?c then _ else _) = _ -> _ => destruct c end;
    [|discriminate].
  intros H. injection H as <-. unfold layout_of. cbn [dtype_of shape0 shape1 ndim].
  split; [|reflexivity]. f_equal.
  rewrite !length_app, length_take, length_map, length_seq, length_drop. lia.
Qed.

Lemma to_2d_one_nb_normalizes_aux a :
  dtype_of (to_2d_one_nb a) = dtype_of a
  /\ shape0 (to_2d_one_nb a) = shape0 a.
Proof. now destruct a. Qed.

Lemma one_nb_loop_layout {St Args} (f : nat -> Args -> M St ndarray) args
    (output_0 : ndarray) :
  forall xs buf s out s',
    for_in xs
      (fun i output =>
         outputs_i <- (if i =? 0 then ret output_0
                       else r <- f i args ;; ret (to_2d_one_nb r)) ;;
         lift (setitem_cols output (i * shape1 outputs_i)
                 ((i + 1) * shape1 outputs_i) outputs_i)) buf s
    = (Ok out, s') ->
    layout_of out = layout_of buf /\ (ndim buf = 2 -> ndim out = 2).
Proof.
  induction xs as [|x xs IH]; intros buf s out s' H; cbn [for_in] in H.
  - injection H as <- <-. split; auto.
  - unfold bind at 1 in H.
    match type of H with context [match ?m s with _ => _ end] =>
      destruct (m s) as [[buf'|e] s1] eqn:Ebody end; [|discriminate].
    apply IH in H. destruct H as (Hl & Hn).
    assert (Hset : exists a b src, setitem_cols buf a b src = Ok buf').
    { unfold bind in Ebody.
      destruct (if x =? 0 then _ else _) as [[o|e] s0]; [|discriminate].
      unfold lift in Ebody. injection Ebody as Hset _. eauto. }
    destruct Hset as (a & b & src & Hset).
    apply setitem_cols_layout in Hset. destruct Hset as (Hl' & Hn').
    split; [congruence|auto].
Qed.

(** Whenever the compiled single-stack executor returns, iteration 0 alone
    has fixed the layout of the result: a rank-2 buffer of iteration 0's
    dtype and row count and of [n] times its column count, whatever the
    later iterations produced. *)
Theorem apply_and_concat_one_nb_layout {St Args} (junk : nat -> nat -> Z)
    (n : nat) (f : nat -> Args -> M St ndarray) (args : Args) (s s' : St)
    (out : ndarray) :
  apply_and_concat_one_nb junk n f args s = (Ok out, s') ->
  exists r0 s1,
    f 0 args s = (Ok r0, s1)
    /\ ndim out = 2
    /\ dtype_of out = dtype_of r0
    /\ shape0 out = shape0 r0
    /\ shape1 out = n * shape1 (to_2d_one_nb r0).
Proof.
  unfold apply_and_concat_one_nb, bind at 1. intros H.
  destruct (f 0 args s) as [[r0|e] s1] eqn:Ef0; [|discriminate].
  exists r0, s1. split; [reflexivity|].
  apply one_nb_loop_layout in H. destruct H as (Hl & Hn).
  specialize (Hn eq_refl). split; [assumption|].
  unfold layout_of, Np.empty in Hl. cbn [dtype_of shape0 shape1] in Hl.
  rewrite length_map, length_seq in Hl. injection Hl as Hd HR Hc.
  destruct (to_2d_one_nb_normalizes_aux r0) as (Ed & ER).
  rewrite Hd, HR, Hc, Ed, ER. auto.
Qed.

Lemma map_layout_insert (cur : list ndarray) k buf buf' :
  cur !! k = Some buf -> layout_of buf' = layout_of buf ->
  map layout_of (<[k := buf']> cur) = map layout_of cur.
Proof.
  intros Hk Hl. apply list_eq. intros j. rewrite !lookup_map.
  destruct (decide (j = k)) as [->|Hne].
  - rewrite list_lookup_insert_eq by (eapply lookup_lt_Some; eassumption).
    rewrite Hk. cbn. now rewrite Hl.
  - now rewrite list_lookup_insert_ne by congruence.
Qed.

(** One step of the write loop of an iteration that does not raise. *)
Lemma inner_step_inv {St} i (srcs cur cur1 : list ndarray) k (s s1 : St) :
  (src <- getitem srcs k ;;
   buf <- getitem cur k ;;
   buf' <- lift (setitem_cols buf (i * shape1 src) ((i + 1) * shape1 src) src) ;;
   ret (<[k := buf']> cur)) s = (Ok cur1, s1) ->
  exists src buf buf',
    srcs !! k = Some src /\ cur !! k = Some buf
    /\ setitem_cols buf (i * shape1 src) ((i + 1) * shape1 src) src = Ok buf'
    /\ cur1 = <[k := buf']> cur /\ s1 = s.
Proof.
  intros H. unfold getitem in H.
  destruct (srcs !! k) as [src|]; [|discriminate].
  rewrite bind_ret_l in H.
  destruct (cur !! k) as [buf|]; [|discriminate].
  rewrite bind_ret_l in H. unfold bind, lift, ret in H.
  destruct (setitem_cols buf (i * shape1 src) ((i + 1) * shape1 src) src)
    as [buf'|e] eqn:Hset; [|discriminate].
  injection H as <- <-. exists src, buf, buf'. repeat split. exact Hset.
Qed.

Lemma inner_loop_layout {St} i (srcs : list ndarray) :
  forall m k cur (s : St) cur' s',
    for_in (seq k m)
      (fun j outputs =>
         src <- getitem srcs j ;;
         buf <- getitem outputs j ;;
         buf' <- lift (setitem_cols buf (i * shape1 src)
                         ((i + 1) * shape1 src) src) ;;
         ret (<[j := buf']> outputs)) cur s
    = (Ok cur', s') ->
    map layout_of cur' = map layout_of cur /\ s' = s.
Proof.
  induction m as [|m IH]; intros k cur s cur' s' H; cbn [seq for_in] in H.
  - injection H as <- <-. split; reflexivity.
  - unfold bind at 1 in H.
    match type of H with context [match ?m s with _ => _ end] =>
      destruct (m s) as [[cur1|e] s1] eqn:Ebody end; [|discriminate].
    apply inner_step_inv in Ebody.
    destruct Ebody as (src & buf & buf' & _ & Hbuf & Hset & -> & ->).
    apply IH in H. destruct H as (Hl & ->). split; [|reflexivity].
    rewrite Hl. apply (map_layout_insert cur k buf buf' Hbuf).
    now apply setitem_cols_layout in Hset.
Qed.

(** One iteration of the fill loop of the compiled multi-stack executor that
    does not raise: the tuple it wrote and the buffers after it. *)
Lemma outer_step_inv {St Args} (f : nat -> Args -> M St (list ndarray)) args
    (outputs_0 bufs bufs' : list ndarray) x (s s1 : St) :
  (outputs_i <- (if x =? 0 then ret outputs_0
                 else r <- f x args ;; ret (to_2d_multiple_nb r)) ;;
   for_in (range (length outputs_i))
     (fun j outputs =>
        src <- getitem outputs_i j ;;
        buf <- getitem outputs j ;;
        buf' <- lift (setitem_cols buf (x * shape1 src)
                        ((x + 1) * shape1 src) src) ;;
        ret (<[j := buf']> outputs)) bufs) s = (Ok bufs', s1) ->
  exists outputs_i s0,
    (x = 0 /\ outputs_i = outputs_0 /\ s0 = s
     \/ x <> 0 /\ exists r, f x args s = (Ok r, s0) /\ outputs_i = map to_2d r)
    /\ for_in (seq 0 (length outputs_i))
         (fun j outputs =>
            src <- getitem outputs_i j ;;
            buf <- getitem outputs j ;;
            buf' <- lift (setitem_cols buf (x * shape1 src)
                            ((x + 1) * shape1 src) src) ;;
            ret (<[j := buf']> outputs)) bufs s0 = (Ok bufs', s1).
Proof.
  intros H. unfold bind at 1 in H. destruct (x =? 0) eqn:Ex.
  - apply Nat.eqb_eq in Ex. unfold ret at 1 in H. cbv beta iota in H.
    exists outputs_0, s. split; [left; auto|exact H].
  - apply Nat.eqb_neq in Ex. unfold bind at 1 in H.
    destruct (f x args s) as [[r|e] s0] eqn:Ef; [|discriminate].
    unfold ret at 1 in H. cbv beta iota in H.
    rewrite to_2d_multiple_nb_map in H.
    exists (map to_2d r), s0. split; [right; eauto|exact H].
Qed.

Lemma multiple_nb_loop_layout {St Args}
    (f : nat -> Args -> M St (list ndarray)) args (outputs_0 : list ndarray) :
  forall xs bufs s out s',
    for_in xs
      (fun i outputs =>
         outputs_i <- (if i =? 0 then ret outputs_0
                       else r <- f i args ;; ret (to_2d_multiple_nb r)) ;;
         for_in (range (length outputs_i))
           (fun j outputs =>
              src <- getitem outputs_i j ;;
              buf <- getitem outputs j ;;
              buf' <- lift (setitem_cols buf (i * shape1 src)
                              ((i + 1) * shape1 src) src) ;;
              ret (<[j := buf']> outputs))
           outputs) bufs s
    = (Ok out, s') ->
    map layout_of out = map layout_of bufs.
Proof.
  induction xs as [|x xs IH]; intros bufs s out s' H; cbn [for_in] in H.
  - now injection H as <- <-.
  - unfold bind at 1 in H.
    match type of H with context [match ?m s with _ => _ end] =>
      destruct (m s) as [[bufs1|e] s1] eqn:Ebody end; [|discriminate].
    apply outer_step_inv in Ebody.
    destruct Ebody as (outputs_i & s0 & _ & Hin).
    apply inner_loop_layout in Hin. destruct Hin as (Hl & _).
    apply IH in H. congruence.
Qed.

(** Whenever the compiled multi-stack executor returns, iteration 0 alone
    has fixed the shape of the result: as many buffers as iteration 0's
    tuple has elements, the one at each position of that element's dtype and
    row count and of [n] times its column count. *)
Theorem apply_and_concat_multiple_nb_layout {St Args}
    (junk : nat -> nat -> nat -> Z) (n : nat)
    (fs : nat -> Args -> M St (list ndarray)) (args : Args) (s s' : St)
    (outs : list ndarray) :
  apply_and_concat_multiple_nb junk n fs args s = (Ok outs, s') ->
  exists r0 s1,
    fs 0 args s = (Ok r0, s1)
    /\ length outs = length r0
    /\ map layout_of outs
       = map (fun a => (dtype_of a, shape0 a, n * shape1 (to_2d a))) r0.
Proof.
  unfold apply_and_concat_multiple_nb, bind at 1. intros H.
  destruct (fs 0 args s) as [[r0|e] s1] eqn:Ef0; [|discriminate].
  exists r0, s1. split; [reflexivity|].
  cbv zeta in H. rewrite to_2d_multiple_nb_map in H. unfold range at 1 in H.
  rewrite (bind_ok _ _ _ _ _
             (alloc_loop junk n (map to_2d r0) (map to_2d r0) 0 [] s1 eq_refl))
    in H.
  cbn [app] in H. apply multiple_nb_loop_layout in H.
  assert (E : map layout_of outs
              = map (fun a => (dtype_of a, shape0 a, n * shape1 (to_2d a))) r0).
  { rewrite H. apply list_eq. intros j.
    rewrite !lookup_map, list_lookup_imap, lookup_map.
    destruct (r0 !! j) as [a|]; [|reflexivity]. cbn.
    unfold layout_of, Np.empty. cbn [dtype_of shape0 shape1].
    rewrite length_map, length_seq.
    now destruct a. }
  split; [|exact E].
  apply (f_equal length) in E. now rewrite !length_map in E.
Qed.

(** ** Tuples longer than iteration 0's in the compiled multi-stack executor *)

Lemma inner_loop_too_long {St} i (srcs : list ndarray) :
  forall m k cur (s : St) cur' s',
    k <= length cur < k + m ->
    for_in (seq k m)
      (fun j outputs =>
         src <- getitem srcs j ;;
         buf <- getitem outputs j ;;
         buf' <- lift (setitem_cols buf (i * shape1 src)
                         ((i + 1) * shape1 src) src) ;;
         ret (<[j := buf']> outputs)) cur s
    <> (Ok cur', s').
Proof.
  induction m as [|m IH]; intros k cur s cur' s' Hk H; [lia|].
  cbn [seq for_in] in H. unfold bind at 1 in H.
  match type of H with context [match ?m s with _ => _ end] =>
    destruct (m s) as [[cur1|e] s1] eqn:Ebody end; [|discriminate].
  apply inner_step_inv in Ebody.
  destruct Ebody as (src & buf & buf' & _ & Hbuf & _ & -> & ->).
  apply lookup_lt_Some in Hbuf.
  apply (IH (S k) (<[k := buf']> cur) s cur' s'); [|exact H].
  rewrite length_insert. lia.
Qed.

Lemma multiple_nb_loop_longer {St Args}
    (f : nat -> Args -> M St (list ndarray)) args
    (outputs_0 : list ndarray) i k :
  i <> 0 ->
  (forall s r s', f i args s = (Ok r, s') -> k < length r) ->
  forall xs bufs s,
    In i xs -> length bufs = k ->
    raises
      (for_in xs
         (fun i outputs =>
            outputs_i <- (if i =? 0 then ret outputs_0
                          else r <- f i args ;; ret (to_2d_multiple_nb r)) ;;
            for_in (range (length outputs_i))
              (fun j outputs =>
                 src <- getitem outputs_i j ;;
                 buf <- getitem outputs j ;;
                 buf' <- lift (setitem_cols buf (i * shape1 src)
                                 ((i + 1) * shape1 src) src) ;;
                 ret (<[j := buf']> outputs))
              outputs) bufs) s.
Proof.
  intros Hi Hlong. unfold raises.
  induction xs as [|x xs IH]; intros bufs s Hin Hk; [destruct Hin|].
  cbn [for_in]. unfold bind at 1.
  match goal with |- context [match ?m s with _ => _ end] =>
    destruct (m s) as [[bufs1|e] s1] eqn:Ebody end; [|eauto].
  apply outer_step_inv in Ebody.
  destruct Ebody as (outputs_i & s0 & Hcase & Hloop).
  assert (Hk1 : length bufs1 = k /\ x <> i).
  { split.
    - apply inner_loop_layout in Hloop. destruct Hloop as (Hl & _).
      apply (f_equal length) in Hl. rewrite !length_map in Hl. lia.
    - intros ->. destruct Hcase as [(H0 & _)|(_ & r & Hf & ->)]; [congruence|].
      apply Hlong in Hf.
      apply (inner_loop_too_long i (map to_2d r) (length (map to_2d r)) 0
               bufs s0 bufs1 s1);
        [|exact Hloop].
      rewrite length_map. lia. }
  destruct Hk1 as (Hk1 & Hne).
  apply IH; [|assumption]. destruct Hin as [->|Hin]; [congruence|assumption].
Qed.

(** The compiled multi-stack executor raises when some iteration [i > 0]
    returns a longer tuple than iteration 0 (it has allocated one buffer per
    element of iteration 0's tuple), where the sequential executor drops the
    extra elements. *)
Theorem apply_and_concat_multiple_nb_longer_tuple {St Args}
    (junk : nat -> nat -> nat -> Z) (n i k : nat)
    (fs : nat -> Args -> M St (list ndarray)) (args : Args) (s : St) :
  0 < i < n ->
  (forall s r s', fs 0 args s = (Ok r, s') -> length r = k) ->
  (forall s r s', fs i args s = (Ok r, s') -> k < length r) ->
  raises (apply_and_concat_multiple_nb junk n fs args) s.
Proof.
  intros Hi H0 Hlong. unfold apply_and_concat_multiple_nb, raises.
  unfold bind at 1.
  destruct (fs 0 args s) as [[r0|e] s1] eqn:Ef0; [|eauto].
  cbv zeta. rewrite to_2d_multiple_nb_map. unfold range at 1.
  rewrite (bind_ok _ _ _ _ _
             (alloc_loop junk n (map to_2d r0) (map to_2d r0) 0 [] s1 eq_refl)).
  cbn [app].
  apply (multiple_nb_loop_longer fs args (map to_2d r0) i k);
    try lia; try assumption.
  - unfold range. apply in_seq. lia.
  - rewrite length_imap, length_map. eapply H0. exact Ef0.
Qed.

(** ** Columns the compiled single-stack executor never writes *)

Lemma setitem_cols_tail out a b src out' m :
  setitem_cols out a b src = Ok out' -> a <= b -> b <= m ->
  drop m (columns_of out') = drop m (columns_of out).
Proof.
  unfold setitem_cols. destruct out as [dt data | dt R cols]; [discriminate|].
  destruct (as_rows_cols src) as [sr scols].
  match goal with |- (if ?c then _ else _) = _ -> _ => destruct c end;
    [|discriminate].
  intros H Hab Hbm. injection H as <-. cbn [columns_of].
  set (lo := Nat.min a (length cols)).
  set (hi := Nat.max lo (Nat.min b (length cols))).
  rewrite app_assoc.
  rewrite drop_app_ge;
    rewrite length_app, length_take, length_map, length_seq; [|lia].
  rewrite drop_drop. f_equal. lia.
Qed.

Lemma one_nb_loop_tail {St Args} (f : nat -> Args -> M St ndarray) args
    (output_0 : ndarray) m :
  shape1 output_0 <= m ->
  forall xs,
    (forall i s r s', In i xs -> i <> 0 -> f i args s = (Ok r, s') ->
       (i + 1) * shape1 (to_2d_one_nb r) <= m) ->
    forall buf s out s',
      for_in xs
        (fun i output =>
           outputs_i <- (if i =? 0 then ret output_0
                         else r <- f i args ;; ret (to_2d_one_nb r)) ;;
           lift (setitem_cols output (i * shape1 outputs_i)
                   ((i + 1) * shape1 outputs_i) outputs_i)) buf s
      = (Ok out, s') ->
      drop m (columns_of out) = drop m (columns_of buf).
Proof.
  intros H0. induction xs as [|x xs IH]; intros Hxs buf s out s' H;
    cbn [for_in] in H.
  - now injection H as <- <-.
  - unfold bind at 1 in H.
    match type of H with context [match ?m s with _ => _ end] =>
      destruct (m s) as [[buf'|e] s1] eqn:Ebody end; [|discriminate].
    apply IH in H; [|intros i s0 r s2 Hi; apply Hxs; now right].
    rewrite H. unfold bind in Ebody. destruct (x =? 0) eqn:Ex.
    + apply Nat.eqb_eq in Ex. subst x.
      unfold ret, lift in Ebody. cbv beta iota in Ebody.
      assert (Hset := f_equal fst Ebody). cbn [fst] in Hset.
      apply (setitem_cols_tail _ _ _ _ _ m) in Hset; [assumption|lia|lia].
    + apply Nat.eqb_neq in Ex.
      destruct (f x args s) as [[r|e] s0] eqn:Ef; [|discriminate].
      unfold ret, lift in Ebody. cbv beta iota in Ebody.
      assert (Hset := f_equal fst Ebody). cbn [fst] in Hset.
      apply (setitem_cols_tail _ _ _ _ _ m) in Hset; [assumption|lia|].
      apply (Hxs x s r s0); [now left|assumption|assumption].
Qed.

(** When the later iterations produce fewer columns than iteration 0, the
    compiled single-stack executor still returns, and the last columns of
    its result were never written: they hold what the fresh [np.empty]
    buffer held. *)
Theorem apply_and_concat_one_nb_unwritten {St Args} (junk : nat -> nat -> Z)
    (n c0 : nat) (f : nat -> Args -> M St ndarray) (args : Args) (s s' : St)
    (out : ndarray) :
  (forall s r s', f 0 args s = (Ok r, s') -> shape1 (to_2d_one_nb r) = c0) ->
  (forall i s r s', 0 < i < n -> f i args s = (Ok r, s') ->
     shape1 (to_2d_one_nb r) < c0) ->
  apply_and_concat_one_nb junk n f args s = (Ok out, s') ->
  forall j, Nat.max c0 (n * (c0 - 1)) <= j < n * c0 ->
    columns_of out !! j
    = Some (map (fun r => junk r j) (seq 0 (shape0 out))).
Proof.
  intros H0 Hlt Hrun j Hj.
  unfold apply_and_concat_one_nb, bind at 1 in Hrun.
  destruct (f 0 args s) as [[r0|e] s1] eqn:Ef0; [|discriminate].
  specialize (H0 _ _ _ Ef0).
  assert (Hl := Hrun). apply one_nb_loop_layout in Hl. destruct Hl as (Hl & _).
  apply (one_nb_loop_tail f args _ (Nat.max c0 (n * (c0 - 1)))) in Hrun.
  - assert (E : columns_of out !! j
                = columns_of (Np.empty junk (shape0 (to_2d_one_nb r0))
                                (n * shape1 (to_2d_one_nb r0))
                                (dtype_of (to_2d_one_nb r0))) !! j).
    { replace j with (Nat.max c0 (n * (c0 - 1))
                      + (j - Nat.max c0 (n * (c0 - 1)))) by lia.
      now rewrite <- !lookup_drop, Hrun. }
    rewrite E. unfold layout_of in Hl. injection Hl as _ HR _. rewrite HR.
    unfold Np.empty. cbn [columns_of shape0]. rewrite lookup_map, H0.
    now rewrite lookup_seq_lt by lia.
  - lia.
  - intros i s0 r s2 Hi Hne Hf. apply in_range_lt in Hi.
    specialize (Hlt i s0 r s2 ltac:(lia) Hf). nia.
Qed.

(** ** What the compiled single-stack executor stores *)






(** ** Blocks wider than the compiled executor has room for *)

Lemma one_step_inv {St Args} (f : nat -> Args -> M St ndarray) args
    (output_0 buf buf' : ndarray) x (s s1 : St) :
  (outputs_i <- (if x =? 0 then ret output_0
                 else r <- f x args ;; ret (to_2d_one_nb r)) ;;
   lift (setitem_cols buf (x * shape1 outputs_i)
           ((x + 1) * shape1 outputs_i) outputs_i)) s = (Ok buf', s1) ->
  exists outputs_i,
    (x = 0 /\ outputs_i = output_0
     \/ x <> 0 /\ exists r s0, f x args s = (Ok r, s0)
                               /\ outputs_i = to_2d_one_nb r)
    /\ setitem_cols buf (x * shape1 outputs_i)
         ((x + 1) * shape1 outputs_i) outputs_i = Ok buf'.
Proof.
  intros H. unfold bind at 1 in H. destruct (x =? 0) eqn:Ex.
  - apply Nat.eqb_eq in Ex. unfold ret, lift in H. cbv beta iota in H.
    exists output_0. split; [left; auto|]. exact (f_equal fst H).
  - apply Nat.eqb_neq in Ex. unfold bind at 1 in H.
    destruct (f x args s) as [[r|e] s0] eqn:Ef; [|discriminate].
    unfold ret, lift in H. cbv beta iota in H.
    exists (to_2d_one_nb r). split; [right; eauto|]. exact (f_equal fst H).
Qed.

Lemma setitem_cols_overflow dt R cols i r :
  shape1 (to_2d r) <> 1 ->
  length cols < (i + 1) * shape1 (to_2d r) ->
  setitem_cols (Array2d dt R cols) (i * shape1 (to_2d r))
    ((i + 1) * shape1 (to_2d r)) (to_2d r) = Raise ValueError.
Proof.
  intros H1 Hw. unfold setitem_cols.
  destruct (to_2d_rank2 r) as (d & sr & cs & E). rewrite E in *.
  cbn [as_rows_cols shape1] in *.
  set (lo := Nat.min (i * length cs) (length cols)).
  set (hi := Nat.max lo (Nat.min ((i + 1) * length cs) (length cols))).
  assert (Hc : (length cs =? hi - lo) = false) by (apply Nat.eqb_neq; nia).
  assert (Hone : (length cs =? 1) = false) by now apply Nat.eqb_neq.
  rewrite Hc, Hone. cbn [orb]. now rewrite andb_false_r.
Qed.

Lemma one_nb_loop_overflow {St Args} (f : nat -> Args -> M St ndarray) args
    (output_0 : ndarray) i N :
  i <> 0 ->
  (forall s r s', f i args s = (Ok r, s') ->
     shape1 (to_2d_one_nb r) <> 1 /\ N < (i + 1) * shape1 (to_2d_one_nb r)) ->
  forall xs dt R cols s,
    In i xs -> length cols = N ->
    raises
      (for_in xs
         (fun i output =>
            outputs_i <- (if i =? 0 then ret output_0
                          else r <- f i args ;; ret (to_2d_one_nb r)) ;;
            lift (setitem_cols output (i * shape1 outputs_i)
                    ((i + 1) * shape1 outputs_i) outputs_i))
         (Array2d dt R cols)) s.
Proof.
  intros Hi Hwide. unfold raises.
  induction xs as [|x xs IH]; intros dt R cols s Hin HN; [destruct Hin|].
  cbn [for_in]. unfold bind at 1.
  match goal with |- context [match ?m s with _ => _ end] =>
    destruct (m s) as [[buf'|e] s1] eqn:Ebody end; [|eauto].
  apply one_step_inv in Ebody. destruct Ebody as (outputs_i & Hcase & Hset).
  assert (Hne : x <> i).
  { intros ->. destruct Hcase as [(H0 & _)|(_ & r & s0 & Hf & ->)];
      [congruence|].
    destruct (Hwide _ _ _ Hf) as (H1 & Hw). rewrite to_2d_one_nb_eq in *.
    rewrite setitem_cols_overflow in Hset by (assumption || lia).
    discriminate. }
  destruct (setitem_cols_rank2 _ _ _ _ _ Hset) as (c1 & c2 & _ & E2).
  apply setitem_cols_layout in Hset. destruct Hset as (Hl & _).
  cbn [dtype_of shape0] in E2. subst buf'.
  unfold layout_of in Hl. cbn [dtype_of shape0 shape1] in Hl.
  injection Hl as Hlen.
  apply IH; [|lia]. destruct Hin as [->|Hin]; [congruence|assumption].
Qed.

(** The compiled single-stack executor raises when the block of some
    iteration [i > 0] would end beyond the [n * c0] columns it allocated
    from iteration 0's column count [c0] (and has more than one column, or
    none): so it does when the last iteration has more columns than
    iteration 0. *)
Theorem apply_and_concat_one_nb_overflow {St Args} (junk : nat -> nat -> Z)
    (n i c0 : nat) (f : nat -> Args -> M St ndarray) (args : Args) (s : St) :
  0 < i < n ->
  (forall s r s', f 0 args s = (Ok r, s') -> shape1 (to_2d_one_nb r) = c0) ->
  (forall s r s', f i args s = (Ok r, s') ->
     shape1 (to_2d_one_nb r) <> 1
     /\ n * c0 < (i + 1) * shape1 (to_2d_one_nb r)) ->
  raises (apply_and_concat_one_nb junk n f args) s.
Proof.
  intros Hi H0 Hwide. unfold apply_and_concat_one_nb, raises, bind.
  destruct (f 0 args s) as [[r0|e] s1] eqn:Ef0; [|eauto].
  rewrite (H0 _ _ _ Ef0). unfold Np.empty.
  apply (one_nb_loop_overflow f args (to_2d_one_nb r0) i (n * c0));
    try lia; try assumption.
  - unfold range. apply in_seq. lia.
  - now rewrite length_map, length_seq.
Qed.

(** ** Column counts in the sequential single-stack executor *)

Lemma hstack_columns R (arrs : list ndarray) :
  shape1 (hstack R arrs) = list_sum (map (fun o => shape1 (to_2d o)) arrs).
Proof.
  unfold hstack. cbn [shape1]. generalize (stack_dtype arrs) as dt. intros dt.
  induction arrs as [|o arrs IH]; [reflexivity|].
  cbn [map concat list_sum]. rewrite length_app, IH. f_equal.
  unfold block. rewrite length_map.
  now destruct (to_2d_rank2 o) as (d & r & cs & ->).
Qed.

(** The sequential single-stack executor accepts outputs whose column counts
    differ: with a shared row count [R] it returns a rank-2 buffer of [R]
    rows whose column count is the sum of the column counts of the
    normalized outputs, in the promotion of their dtypes. *)
Theorem apply_and_concat_one_total_columns {St Args} (n : nat)
    (f : nat -> Args -> M St ndarray) (args : Args) (show_progress : bool)
    (s s' : St) (outs : list ndarray) (R : nat) :
  1 <= n ->
  iterate f args (range n) s = (Ok outs, s') ->
  Forall (fun o => shape0 (to_2d o) = R) outs ->
  exists out,
    apply_and_concat_one n f args show_progress s = (Ok out, s')
    /\ ndim out = 2
    /\ shape0 out = R
    /\ shape1 out = list_sum (map (fun o => shape1 (to_2d o)) outs)
    /\ dtype_of out = stack_dtype outs.
Proof.
  intros Hn Hrun HR.
  assert (Hlen := iterate_length _ _ _ _ _ _ Hrun).
  unfold range in Hlen. rewrite length_seq in Hlen.
  exists (hstack R outs). split.
  - rewrite apply_and_concat_one_run. unfold bind. rewrite Hrun.
    destruct outs as [|o outs]; [cbn in Hlen; lia|].
    unfold lift. now rewrite (column_stack_to_2d R).
  - repeat split. apply hstack_columns.
Qed.

(** ** The further properties at sample inputs *)

Section MoreSampleRuns.
Import Samples MoreSamples MoreSamples2 MoreSamples3.

Lemma sequential_executors_fail_fast_witness :
exists s1 s2,
  apply_and_concat_none 4 (logged fails_at_two) tt false (0, [])
    = (Raise (Exception 7), (s1, [] ++ seq 0 3))
  /\ apply_and_concat_none_nb 4 (logged fails_at_two) tt (0, [])
     = (Raise (Exception 7), (s1, [] ++ seq 0 3))
  /\ apply_and_concat_one 4 (logged fails_at_two) tt false (0, [])
     = (Raise (Exception 7), (s1, [] ++ seq 0 3))
  /\ apply_and_concat_multiple 4 (logged fails_at_two_pair) tt false (0, [])
     = (Raise (Exception 7), (s2, [] ++ seq 0 3)).
Proof.
apply (sequential_executors_fail_fast 4 2 (Exception 7) fails_at_two
         fails_at_two_pair tt false 0 []).
- lia.
- intros [|[|i]] s Hi; [eexists _, _; reflexivity..|lia].
- intros s. eexists. reflexivity.
- intros [|[|i]] s Hi; [eexists _, _; reflexivity..|lia].
- intros s. eexists. reflexivity.
Defined.

Lemma apply_and_concat_one_row_mismatch_witness :
apply_and_concat_one 2 (logged three_rows_later) tt false (0, [])
  = (Raise ValueError, (2, [0; 1]))
/\ [0; 1] = [] ++ seq 0 2.
Proof.
apply (apply_and_concat_one_row_mismatch 2 three_rows_later tt false 0 2 []
         [0; 1] (Array2d int64 2 [[5; 6]%Z])
         [Array2d int64 3 [[7; 8; 9]%Z]]).
- reflexivity.
- constructor. cbn. lia.
Defined.

Lemma apply_and_concat_multiple_shortest_witness :
apply_and_concat_multiple 2 longer_later tt false 0
= (Ok [Array2d int64 2 [[1; 2]; [3; 4]]%Z], 2)
/\ min_length [[Array1d int64 [1; 2]%Z];
               [Array1d int64 [3; 4]%Z; Array1d int64 [5; 6]%Z]] = 1.
Proof.
destruct (apply_and_concat_multiple_shortest 2 longer_later tt false 0 2
            [[Array1d int64 [1; 2]%Z];
             [Array1d int64 [3; 4]%Z; Array1d int64 [5; 6]%Z]] eq_refl)
  as (H & _).
split; [exact H|reflexivity].
Defined.

Lemma apply_and_concat_multiple_ray_ordered_witness :
apply_and_concat_multiple 3 (pure_call pair_task) tt false 0
= (apply_and_concat_multiple_ray [2; 0; 1] 3 pair_task tt, 0).
Proof.
apply (apply_and_concat_multiple_ray_ordered (St := nat) [2; 0; 1] 3
         pair_task tt false 0).
exact (perm_trans (perm_swap 0 2 [1]) (perm_skip 0 (perm_swap 1 2 []))).
Defined.

Lemma combine_and_concat_ray_ordered_witness :
combine_and_concat [1; 2]%Z [[3; 4]; [5; 6]]%Z
  (fun obj o args => lift (side_by_side_task obj o args)) tt false 0
= (combine_and_concat_ray [1; 0] [1; 2]%Z [[3; 4]; [5; 6]]%Z
     side_by_side_task tt, 0).
Proof.
apply (combine_and_concat_ray_ordered [1; 0] [1; 2]%Z [[3; 4]; [5; 6]]%Z
         side_by_side_task tt false 0).
exact (perm_swap 0 1 []).
Defined.

Lemma combine_and_concat_nb_refines_witness :
combine_and_concat_nb no_junk [1; 2]%Z [[3; 4]; [5; 6]]%Z side_by_side tt 0
= combine_and_concat [1; 2]%Z [[3; 4]; [5; 6]]%Z side_by_side tt false 0.
Proof.
apply (combine_and_concat_nb_refines no_junk [1; 2]%Z [[3; 4]; [5; 6]]%Z
         side_by_side tt false 0 int64 2 2).
- cbn. lia.
- intros o s r s' _ H. injection H as <- <-. repeat split.
Defined.

Lemma apply_and_concat_one_nb_layout_witness :
exists r0 s1,
  column_of_index 0 tt 0 = (Ok r0, s1)
  /\ ndim (Array2d int64 2 [[0; 7]; [1; 7]; [2; 7]]%Z) = 2
  /\ dtype_of (Array2d int64 2 [[0; 7]; [1; 7]; [2; 7]]%Z) = dtype_of r0
  /\ shape0 (Array2d int64 2 [[0; 7]; [1; 7]; [2; 7]]%Z) = shape0 r0
  /\ shape1 (Array2d int64 2 [[0; 7]; [1; 7]; [2; 7]]%Z)
     = 3 * shape1 (to_2d_one_nb r0).
Proof.
apply (apply_and_concat_one_nb_layout no_junk 3 column_of_index tt 0 3).
reflexivity.
Defined.

Lemma apply_and_concat_multiple_nb_layout_witness :
exists r0 s1,
  pair_of_index 0 tt 0 = (Ok r0, s1)
  /\ length [Array2d int64 2 [[0; 1]; [1; 1]; [2; 1]]%Z;
             Array2d int8 2 [[0; 2]; [1; 2]; [2; 2]]%Z] = length r0
  /\ map layout_of [Array2d int64 2 [[0; 1]; [1; 1]; [2; 1]]%Z;
                    Array2d int8 2 [[0; 2]; [1; 2]; [2; 2]]%Z]
     = map (fun a => (dtype_of a, shape0 a, 3 * shape1 (to_2d a))) r0.
Proof.
apply (apply_and_concat_multiple_nb_layout no_junks 3 pair_of_index tt 0 3).
reflexivity.
Defined.

Lemma apply_and_concat_multiple_nb_longer_tuple_witness :
raises (apply_and_concat_multiple_nb no_junks 2 longer_later tt) 0.
Proof.
apply (apply_and_concat_multiple_nb_longer_tuple no_junks 2 1 1 longer_later
         tt 0).
- lia.
- intros s r s' H. injection H as <- <-. reflexivity.
- intros s r s' H. injection H as <- <-. cbn. lia.
Defined.

Lemma apply_and_concat_one_nb_unwritten_witness :
apply_and_concat_one_nb stale 2 narrower_later tt 0
  = (Ok (Array2d int64 2 [[1; 2]; [5; 6]; [102; 112]; [103; 113]]%Z), 2)
/\ columns_of (Array2d int64 2 [[1; 2]; [5; 6]; [102; 112]; [103; 113]]%Z)
     !! 3
   = Some (map (fun r => stale r 3) (seq 0 2)).
Proof.
split; [reflexivity|].
apply (apply_and_concat_one_nb_unwritten stale 2 2 narrower_later tt 0 2
         (Array2d int64 2 [[1; 2]; [5; 6]; [102; 112]; [103; 113]]%Z)).
- intros s r s' H. injection H as <- <-. reflexivity.
- intros [|[|i]] s r s' Hi H; try lia. injection H as <- <-. cbn. lia.
- reflexivity.
- cbn. lia.
Defined.


Lemma apply_and_concat_one_nb_overflow_witness :
raises (apply_and_concat_one_nb no_junk 2 wider_later tt) 0.
Proof.
apply (apply_and_concat_one_nb_overflow no_junk 2 1 1 wider_later tt 0).
- lia.
- intros s r s' H. injection H as <- <-. reflexivity.
- intros s r s' H. injection H as <- <-. cbn. lia.
Defined.

Lemma apply_and_concat_one_total_columns_witness :
exists out,
  apply_and_concat_one 3 growing_columns tt false 0 = (Ok out, 3)
  /\ ndim out = 2
  /\ shape0 out = 2
  /\ shape1 out
     = list_sum (map (fun o => shape1 (to_2d o))
                   [Array2d int64 2 [[0; 0]%Z];
                    Array2d int64 2 [[1; 0]; [1; 0]]%Z;
                    Array2d int64 2 [[2; 0]; [2; 0]; [2; 0]]%Z])
  /\ dtype_of out
     = stack_dtype [Array2d int64 2 [[0; 0]%Z];
                    Array2d int64 2 [[1; 0]; [1; 0]]%Z;
                    Array2d int64 2 [[2; 0]; [2; 0]; [2; 0]]%Z].
Proof.
apply (apply_and_concat_one_total_columns 3 growing_columns tt false 0 3).
- lia.
- reflexivity.
- repeat constructor.
Defined.
End MoreSampleRuns.
